(** * glasslabs/iotawatt: the poll, aggregate and render loop

    A shallow embedding of the two versions of the module that the
    repository holds:

    - [Fine]   is [iotawatt.go]: high resolution, every row plotted,
      values converted to kilowatts, a failing tick stops the worker;
    - [Coarse] is the other version of that file: low resolution,
      rows kept when their timestamp is a multiple of 20, values in watts,
      a failing tick is skipped.

    Go's [float64] is Rocq's primitive binary64 float, Go's [int] is [Z]
    with the 64-bit wrap-around written out, slices are lists indexed by
    [Z] with the run-time bounds check written out, [url.Values] is a
    [gmap] from keys to lists of values.  What the module does to the
    outside (HTTP, the UI, the logger, the file system) is recorded as a
    trace of events; what the outside and the Go libraries answer is read
    from an environment record.  The goroutine of [run] is a transition
    system over the worker, its two channels and the trace; a second
    layer adds a clock and the ticker of [time.NewTicker]. *)

From Stdlib Require Import ZArith List Bool Ascii.
From Stdlib Require Import Floats.PrimFloat Floats.FloatOps Floats.SpecFloat.
From stdpp Require Import gmap strings list relations.
Import ListNotations.

Set Warnings "-inexact-float".
Open Scope string_scope.
Open Scope list_scope.
Open Scope Z_scope.

(** ** The Go run time: panics, indexing, integers, floats *)

(** The run-time panics the module can raise. *)
Inductive panic : Type :=
| IndexOutOfRange (i len : Z)      (* index out of range [i] with length len *)
| CloseOfClosedChannel             (* close of closed channel *)
| NonPositiveTicker.               (* non-positive interval for NewTicker *)

(** The outcome of evaluating a piece of Go code: a value, or a panic that
    unwinds the goroutine (no function of the module recovers). *)
Inductive Outcome (A : Type) : Type :=
| Ret (a : A)
| Panicked (p : panic).
Arguments Ret {A} a.
Arguments Panicked {A} p.

Definition obind {A B} (o : Outcome A) (k : A -> Outcome B) : Outcome B :=
  match o with
  | Ret a => k a
  | Panicked p => Panicked p
  end.

Notation "'do' x <- c ; k" := (obind c (fun x => k))
  (at level 10, x pattern, c at level 100, k at level 200).

(** [s[i]] on a slice: the bounds check of the run time, then the element. *)
Definition index {A} (s : list A) (i : Z) : Outcome A :=
  match (if i <? 0 then None else s !! Z.to_nat i) with
  | Some x => Ret x
  | None => Panicked (IndexOutOfRange i (Z.of_nat (length s)))
  end.

(** [for _, x := range xs { st = body x st }], stopping at the first panic. *)
Fixpoint for_each {A S} (xs : list A) (body : A -> S -> Outcome S) (st : S)
  : Outcome S :=
  match xs with
  | [] => Ret st
  | x :: xs' => do st' <- body x st; for_each xs' body st'
  end.

(** Go's [int] on a 64-bit target. *)
Definition int_min : Z := - 2 ^ 63.
Definition int_max : Z := 2 ^ 63 - 1.
Definition wrap_int (z : Z) : Z := (z + 2 ^ 63) mod 2 ^ 64 - 2 ^ 63.

(** The integer a finite float truncates to, toward zero. *)
Definition float_trunc (f : float) : option Z :=
  match Prim2SF f with
  | S754_zero _ => Some 0
  | S754_finite s m e =>
      let mag := if 0 <=? e then Z.shiftl (Z.pos m) e
                 else Z.shiftr (Z.pos m) (- e) in
      Some (if s then - mag else mag)
  | S754_infinity _ => None
  | S754_nan => None
  end.

(** [int(f)]: truncation toward zero.  For a NaN, an infinity or a value
    outside [int] Go leaves the result to the implementation; [oor] is that
    result. *)
Definition int_of_float64 (oor : float -> Z) (f : float) : Z :=
  match float_trunc f with
  | Some z => if (int_min <=? z) && (z <=? int_max) then z else oor f
  | None => oor f
  end.

(** ** Aggregation *)

(** [type series struct { Data [][]float64 }] *)
Record series : Type := { Data : list (list float) }.

(** [s.Data = append(s.Data, p)] *)
Definition append_point (s : series) (p : list float) : series :=
  {| Data := Data s ++ [p] |}.

(** [make([]series, l)] *)
Definition make_series (l : nat) : list series := replicate l {| Data := [] |}.

(** [series[k].Data = append(series[k].Data, p)] *)
Definition push_point (ser : list series) (k : Z) (p : list float)
  : Outcome (list series) :=
  do s <- index ser k;
  Ret (<[Z.to_nat k := append_point s p]> ser).

(** ** Errors *)

(** Go [error] values, by the way they are made. *)
Inductive error : Type :=
| errors_New (text : string)                      (* errors.New(text) *)
| fmt_Errorf_w (text : string) (wrapped : error)  (* fmt.Errorf(text + "%w", wrapped) *)
| foreign (text : string).                        (* made by a library or by the host *)

(** [err.Error()] *)
Fixpoint Error (e : error) : string :=
  match e with
  | errors_New t => t
  | fmt_Errorf_w t w => t +:+ Error w
  | foreign t => t
  end.

(** A Go result pair [(value, err)]. *)
Inductive res (A : Type) : Type :=
| OK (a : A)
| Err (e : error).
Arguments OK {A} a.
Arguments Err {A} e.

(** ** Data of the module *)

(** The parts of [url.URL] the module touches: everything before the query,
    and the query. *)
Record url_URL : Type := { Loc : string; RawQuery : string }.

(** [u.String()] of a URL without fragment. *)
Definition URL_String (u : url_URL) : string :=
  if decide (RawQuery u = "") then Loc u
  else Loc u +:+ "?" +:+ RawQuery u.

(** [http.Response], the two fields [request] reads. *)
Record Response : Type := { StatusCode : Z; Body : string }.

(** [type Config struct]; [Interval] is a [time.Duration], in nanoseconds. *)
Record Config : Type := { URL : string; Inputs : list string; Interval : Z }.

(** [types.Info], the fields [New] reads (the logger is part of the
    environment). *)
Record Info : Type := { Name : string; Path : string }.

(** [type Module struct].  The [ui] and [log] capabilities are part of the
    environment, the [done] channel is part of the system state. *)
Record ModuleT : Type := {
  name : string;
  path : string;
  cfg : Config;
  baseURL : url_URL;
  qryVals : gmap string (list string)
}.

Definition apiQueryPath : string := "query".
Definition Second : Z := 1000000000.
Definition Minute : Z := 60 * Second.

(** [strings.Join(elems, sep)] *)
Fixpoint strings_Join (elems : list string) (sep : string) : string :=
  match elems with
  | [] => ""
  | [e] => e
  | e :: rest => e +:+ sep +:+ strings_Join rest sep
  end.

(** ** Effects *)

(** What the module does to the outside, in the order it does it. *)
Inductive Event : Type :=
| EvReadFile (file : string)                    (* os.ReadFile *)
| EvLoadCSS (css : string)                      (* ui.LoadCSS *)
| EvLoadHTML (html : string)                    (* ui.LoadHTML *)
| EvEval (template : string) (args : list string)   (* ui.Eval *)
| EvHttpDo (method : string) (url : string)     (* c.Do(req) *)
| EvBodyClose                                   (* resp.Body.Close() *)
| EvLogError (msg : string) (kv : list string). (* log.Error *)

(** The Go libraries, the platform and the outside world.  Library
    functions are functions of their arguments; the file system, the device
    and the UI also see what happened before (the trace so far). *)
Record Env : Type := {
  conv_oor : float -> Z;
  url_Parse : string -> res url_URL;                      (* url.Parse *)
  URL_Parse : url_URL -> string -> res url_URL;           (* URL.Parse, on a pointer *)
  Values_Encode : gmap string (list string) -> string;    (* Values.Encode *)
  http_NewRequest : string -> string -> option error;     (* its error, if any *)
  json_Decode : string -> res (list (list float));        (* Decoder.Decode *)
  json_Marshal : list series -> res string;               (* json.Marshal *)
  strconv_FormatFloat : float -> string;                  (* (f, 'f', 1, 64) *)
  strconv_Itoa : Z -> string;
  filepath_Join_Clean : string -> string -> string;       (* Clean(Join(a, b)) *)
  os_ReadFile : list Event -> string -> res string;
  http_Do : list Event -> string -> string -> res Response;
  ui_LoadCSS : list Event -> string -> option error;
  ui_LoadHTML : list Event -> string -> option error;
  ui_Eval : list Event -> string -> list string -> option error
}.

(** Code with effects: it reads the trace so far, extends it, and returns
    a value or panics. *)
Definition Go (A : Type) : Type := list Event -> Outcome A * list Event.

Definition ret {A} (a : A) : Go A := fun tr => (Ret a, tr).

Definition gbind {A B} (c : Go A) (k : A -> Go B) : Go B :=
  fun tr =>
    match c tr with
    | (Ret a, tr') => k a tr'
    | (Panicked p, tr') => (Panicked p, tr')
    end.

Notation "x <- c ;; k" := (gbind c (fun x => k))
  (at level 100, c at next level, right associativity).
Notation "c ;; k" := (gbind c (fun _ => k))
  (at level 100, right associativity).

(** A call to the outside: the answer depends on the trace so far, and the
    call is recorded. *)
Definition call {A} (answer : list Event -> A) (e : Event) : Go A :=
  fun tr => (Ret (answer tr), tr ++ [e]).

(** A pure computation that may panic. *)
Definition lift {A} (o : Outcome A) : Go A := fun tr => (o, tr).

(** [defer cleanup()] around the rest of a function: [cleanup] runs when
    the rest returns and when it panics. *)
Definition defer {A} (cleanup : Go unit) (rest : Go A) : Go A :=
  fun tr =>
    let '(o, tr') := rest tr in
    (o, snd (cleanup tr')).

(** [if err != nil { handle(err) }] *)
Definition on_error (e : option error) (handle : error -> Go unit) : Go unit :=
  match e with
  | Some err => handle err
  | None => ret tt
  end.

Section Shared.

Variable E : Env.

(** [m.ui.Eval(template, args...)], the result dropped. *)
Definition Eval (template : string) (args : list string) : Go (option error) :=
  call (fun tr => ui_Eval E tr template args) (EvEval template args).

(** [m.log.Error(msg, "module", "iotawatt", "id", m.name, "error", err.Error())] *)
Definition log_Error (m : ModuleT) (msg : string) (err : error) : Go unit :=
  call (fun _ => tt)
       (EvLogError msg ["module"; "iotawatt"; "id"; name m; "error"; Error err]).

(** [func (m *Module) loadCSS(path string) error] *)
Definition loadCSS (m : ModuleT) (file : string) : Go (option error) :=
  let p := filepath_Join_Clean E (path m) file in
  r <- call (fun tr => os_ReadFile E tr p) (EvReadFile p) ;;
  match r with
  | Err err => ret (Some (fmt_Errorf_w "iotawatt: could not read css: " err))
  | OK css => call (fun tr => ui_LoadCSS E tr css) (EvLoadCSS css)
  end.

(** [func (m *Module) renderHTML(path string) error] *)
Definition renderHTML (m : ModuleT) (file : string) : Go (option error) :=
  let p := filepath_Join_Clean E (path m) file in
  r <- call (fun tr => os_ReadFile E tr p) (EvReadFile p) ;;
  match r with
  | Err err => ret (Some (fmt_Errorf_w "iotawatt: could not read html: " err))
  | OK html =>
      e <- call (fun tr => ui_LoadHTML E tr html) (EvLoadHTML html) ;;
      match e with
      | Some err => ret (Some (fmt_Errorf_w "iotawatt: could not load html: " err))
      | None => Eval "invokeModuleScripts(%q)" [name m]
      end
  end.

(** [func (m *Module) request(c http.Client, v interface{}) error], with
    [v] the address of the rows: the rows come back as the value. *)
Definition request (m : ModuleT) : Go (res (list (list float))) :=
  match URL_Parse E (baseURL m) apiQueryPath with
  | Err err => ret (Err (fmt_Errorf_w "could not parse url: " err))
  | OK u =>
      let u := {| Loc := Loc u; RawQuery := Values_Encode E (qryVals m) |} in
      match http_NewRequest E "GET" (URL_String u) with
      | Some err => ret (Err (fmt_Errorf_w "could create request: " err))
      | None =>
          r <- call (fun tr => http_Do E tr "GET" (URL_String u))
                    (EvHttpDo "GET" (URL_String u)) ;;
          match r with
          | Err err => ret (Err (fmt_Errorf_w "could not parse url: " err))
          | OK resp =>
              defer (call (fun _ => tt) EvBodyClose)
                (if negb (StatusCode resp =? 200)
                 then ret (Err (errors_New "expected status code"))
                 else match json_Decode E (Body resp) with
                      | Err err => ret (Err (fmt_Errorf_w "could not parse data: " err))
                      | OK raw => ret (OK raw)
                      end)
          end
      end
  end.

End Shared.

(** ** The worker and its channels *)

(** Where the goroutine of [run] stands. *)
Inductive Worker : Type :=
| Starting                 (* spawned, before time.NewTicker *)
| Fetching                 (* about to run the fetch, aggregate, render part *)
| Selecting                (* blocked in the select statement *)
| Exited                   (* run has returned *)
| Crashed (p : panic).     (* run has panicked *)

(** The worker, the [done] channel, the one-slot channel of the ticker and
    the trace of effects. *)
Record Sys : Type := {
  worker : Worker;
  done_closed : bool;
  tick_ready : bool;
  trace : list Event
}.

(** The system [New] leaves behind: [done: make(chan struct{})] and
    [go m.run()]. *)
Definition spawned (tr : list Event) : Sys :=
  {| worker := Starting; done_closed := false; tick_ready := false; trace := tr |}.

(** [close(ch)] on a channel that is open or already closed. *)
Definition close_chan (closed : bool) : Outcome bool :=
  if closed then Panicked CloseOfClosedChannel else Ret true.

(** [func (m *Module) Close() error] *)
Definition Close (s : Sys) : Outcome (option error) * Sys :=
  match close_chan (done_closed s) with
  | Ret c =>
      (Ret None,
       {| worker := worker s; done_closed := c;
          tick_ready := tick_ready s; trace := trace s |})
  | Panicked p => (Panicked p, s)
  end.

(** The cases of [select { case <-m.done: ...; case <-ticker.C: ... }]. *)
Inductive Case : Type := CaseDone | CaseTick.

(** The cases that can proceed: a closed channel can always be received
    from, the ticker's channel when it holds a tick.  Go picks one of them
    at random; with none the goroutine blocks. *)
Definition select_ready (s : Sys) : list Case :=
  (if done_closed s then [CaseDone] else []) ++
  (if tick_ready s then [CaseTick] else []).

(** [time.NewTicker(d)] *)
Definition NewTicker (d : Z) : Outcome unit :=
  if d <=? 0 then Panicked NonPositiveTicker else Ret tt.

(** What [run] returns to the loop. *)
Inductive Ctl : Type := Continue | Return.

(** The system with the worker moved to [w] and the trace grown to [tr]. *)
Definition settled (w : Worker) (s : Sys) (tr : list Event) : Sys :=
  {| worker := w; done_closed := done_closed s;
     tick_ready := tick_ready s; trace := tr |}.

Definition with_worker (w : Worker) (s : Sys) : Sys := settled w s (trace s).

(** The system after a panic [p] in the worker. *)
Definition crashed (p : panic) (s : Sys) (tr : list Event) : Sys :=
  settled (Crashed p) s tr.

(** The worker after one pass through the fetch, aggregate, render part:
    back in the loop, returned from [run], or unwound by a panic. *)
Definition after_pass (next : Worker) (pass : Go Ctl) (s : Sys) : Sys :=
  match pass (trace s) with
  | (Ret Continue, tr) => settled next s tr
  | (Ret Return, tr) => settled Exited s tr
  | (Panicked p, tr) => crashed p s tr
  end.

(** The worker after the select statement took case [c]. *)
Definition after_select (c : Case) (on_tick : Worker) (s : Sys) : Sys :=
  match c with
  | CaseDone => with_worker Exited s
  | CaseTick =>
      {| worker := on_tick; done_closed := done_closed s;
         tick_ready := false; trace := trace s |}
  end.

(** What happens around the worker: the ticker delivers a tick (dropped
    when the slot is full), or the host calls [Close] and it returns. *)
Inductive env_step : Sys -> Sys -> Prop :=
| env_tick s :
    worker s = Fetching \/ worker s = Selecting ->
    env_step s {| worker := worker s; done_closed := done_closed s;
                  tick_ready := true; trace := trace s |}
| env_close s s' :
    Close s = (Ret None, s') ->
    env_step s s'.

(** ** [iotawatt.go] *)

Module Fine.

(** [func NewConfig() *Config] *)
Definition NewConfig : Config :=
  {| URL := ""; Inputs := []; Interval := 2 * Second |}.

(** The query values [New] builds. *)
Definition qryValues (c : Config) : gmap string (list string) :=
  let qryValues : gmap string (list string) :=
    <["format" := ["json"]]> (<["resolution" := ["high"]]> (<["missing" := ["null"]]>
    (<["begin" := ["s-1h"]]> (<["end" := ["s"]]> (<["group" := ["auto"]]> ∅))))) in
  let inputs := ["time.utc.unix"] ++ Inputs c in
  <["select" := ["[" +:+ strings_Join inputs "," +:+ "]"]]> qryValues.

(** [func New(_ context.Context, cfg *Config, info types.Info, ui types.UI)],
    up to [go m.run()]. *)
Definition New (E : Env) (c : Config) (info : Info) : Go (res ModuleT) :=
  let qryValues := qryValues c in
  match url_Parse E (URL c) with
  | Err err => ret (Err (fmt_Errorf_w "could not parse url: " err))
  | OK u =>
      let m := {| name := Name info; path := Path info; cfg := c;
                  baseURL := u; qryVals := qryValues |} in
      e <- loadCSS E m "assets/style.css" ;;
      match e with
      | Some err => ret (Err err)
      | None =>
          e <- renderHTML E m "assets/index.html" ;;
          match e with
          | Some err => ret (Err err)
          | None => ret (OK m)
          end
      end
  end.

(** The body of [for i := 1; i <= l; i++] over one row. *)
Definition channel_step (row : list float) (i : Z) (st : float * list series)
  : Outcome (float * list series) :=
  let '(curr, ser) := st in
  do ri <- index row i;
  let kw := (ri / 1000)%float in
  do r0 <- index row 0;
  do ser' <- push_point ser (i - 1) [r0; kw];
  Ret ((curr + kw)%float, ser').

(** The body of [for _, row := range raw]. *)
Definition row_step (l : Z) (row : list float) (st : float * list series)
  : Outcome (float * list series) :=
  let '(_, ser) := st in
  do (curr, ser') <- for_each (seqZ 1 l) (channel_step row) (0%float, ser);
  Ret (curr, ser').

(** Lines 111 to 122 of [run]: the current total and the series. *)
Definition aggregate (inputs : list string) (raw : list (list float))
  : Outcome (float * list series) :=
  let l := Z.of_nat (length inputs) in
  for_each raw (row_step l) (0%float, make_series (length inputs)).

(** Lines 130 to 140 of [run]: the three updates of the display. *)
Definition render (E : Env) (m : ModuleT) (current : float) (b : string)
  : Go unit :=
  let f := strconv_FormatFloat E current in
  e <- Eval E "document.querySelector('#%s .current .number').innerText = '%s'"
         [name m; f] ;;
  on_error e (log_Error m "Could not update current") ;;
  e <- Eval E "iotaWattSeries = %s" [b] ;;
  on_error e (log_Error m "Could not update series") ;;
  e <- Eval E "iotaWattChart.update({series: iotaWattSeries})" [] ;;
  on_error e (log_Error m "Could not update chart").

(** One pass through the loop of [run], lines 105 to 140, up to the
    select statement. *)
Definition pass (E : Env) (m : ModuleT) : Go Ctl :=
  r <- request E m ;;
  match r with
  | Err err =>
      log_Error m "Could not get current IoTaWatt data" err ;;
      ret Return
  | OK raw =>
      agg <- lift (aggregate (Inputs (cfg m)) raw) ;;
      let '(current, ser) := agg in
      match json_Marshal E ser with
      | Err err =>
          log_Error m "could not encode data" err ;;
          ret Return
      | OK b =>
          render E m current b ;;
          ret Continue
      end
  end.

(** The steps of the goroutine of [run]: the ticker is made, then the
    loop fetches first and selects afterwards. *)
Inductive worker_step (E : Env) (m : ModuleT) : Sys -> Sys -> Prop :=
| step_start s :
    worker s = Starting ->
    worker_step E m s
      (match NewTicker (Interval (cfg m)) with
       | Ret _ => with_worker Fetching s
       | Panicked p => with_worker (Crashed p) s
       end)
| step_pass s :
    worker s = Fetching ->
    worker_step E m s (after_pass Selecting (pass E m) s)
| step_select s c :
    worker s = Selecting ->
    In c (select_ready s) ->
    worker_step E m s (after_select c Fetching s).

Definition step (E : Env) (m : ModuleT) (s s' : Sys) : Prop :=
  worker_step E m s s' \/ env_step s s'.

End Fine.

(** ** The low-resolution version of [iotawatt.go] *)

Module Coarse.

(** [func NewConfig() *Config] *)
Definition NewConfig : Config :=
  {| URL := ""; Inputs := []; Interval := Minute |}.

(** The query values [New] builds. *)
Definition qryValues (c : Config) : gmap string (list string) :=
  let qryValues : gmap string (list string) :=
    <["format" := ["json"]]> (<["resolution" := ["low"]]> (<["missing" := ["skip"]]>
    (<["begin" := ["s-1h"]]> (<["end" := ["s"]]> (<["group" := ["auto"]]> ∅))))) in
  let inputs := ["time.utc.unix"] ++ Inputs c in
  <["select" := ["[" +:+ strings_Join inputs "," +:+ "]"]]> qryValues.

(** [func New(_ context.Context, cfg *Config, info types.Info, ui types.UI)],
    up to [go m.run()]. *)
Definition New (E : Env) (c : Config) (info : Info) : Go (res ModuleT) :=
  let qryValues := qryValues c in
  match url_Parse E (URL c) with
  | Err err => ret (Err (fmt_Errorf_w "could not parse url: " err))
  | OK u =>
      let m := {| name := Name info; path := Path info; cfg := c;
                  baseURL := u; qryVals := qryValues |} in
      e <- loadCSS E m "assets/style.css" ;;
      match e with
      | Some err => ret (Err err)
      | None =>
          e <- renderHTML E m "assets/index.html" ;;
          match e with
          | Some err => ret (Err err)
          | None => ret (OK m)
          end
      end
  end.

(** [for i := 1; i <= l; i++ { current += raw[rl-1][i] }] *)
Definition total_step (raw : list (list float)) (rl : Z) (i : Z) (current : float)
  : Outcome float :=
  do last <- index raw (rl - 1);
  do v <- index last i;
  Ret (current + v)%float.

(** The body of [for j := 1; j <= l; j++] over one kept row. *)
Definition channel_step (row : list float) (j : Z) (ser : list series)
  : Outcome (list series) :=
  do r0 <- index row 0;
  do rj <- index row j;
  push_point ser (j - 1) [r0; rj].

(** [int(row[0])%20 != 0], the test that skips a row. *)
Definition skipped (oor : float -> Z) (r0 : float) : bool :=
  negb (Z.rem (int_of_float64 oor r0) 20 =? 0).

(** The body of [for _, row := range raw]. *)
Definition row_step (oor : float -> Z) (l : Z) (row : list float)
    (ser : list series) : Outcome (list series) :=
  do r0 <- index row 0;
  if skipped oor r0 then Ret ser
  else for_each (seqZ 1 l) (channel_step row) ser.

(** Lines 115 to 130 of [run]: the current total and the series. *)
Definition aggregate (oor : float -> Z) (inputs : list string)
    (raw : list (list float)) : Outcome (float * list series) :=
  let l := Z.of_nat (length inputs) in
  let rl := Z.of_nat (length raw) in
  do current <- for_each (seqZ 1 l) (total_step raw rl) 0%float;
  do ser <- for_each raw (row_step oor l) (make_series (length inputs));
  Ret (current, ser).

(** [func (m *Module) renderCurrent(watt float64) error] *)
Definition renderCurrent (E : Env) (m : ModuleT) (watt : float)
  : Go (option error) :=
  let docSelector := "document.querySelector('#%s .current')" in
  let promote := (100 <? watt)%float in
  let unit := if promote then "kW" else "W" in
  let removeClass := if promote then "W" else "kW" in
  let watt := if promote then (watt / 1000)%float else watt in
  let w := int_of_float64 (conv_oor E) watt in
  let d := wrap_int (int_of_float64 (conv_oor E) (watt * 10)%float
                     - wrap_int (w * 10)) in
  let ws := strconv_Itoa E w in
  let ds := strconv_Itoa E d in
  e <- Eval E (docSelector +:+ ".innerHTML = '%s<sel>.%s %s</sel>'")
         [name m; ws; ds; unit] ;;
  match e with
  | Some err => ret (Some err)
  | None =>
      e <- Eval E (docSelector +:+ ".classList.remove('%s')") [name m; removeClass] ;;
      match e with
      | Some err => ret (Some err)
      | None => Eval E (docSelector +:+ ".classList.add('%s')") [name m; unit]
      end
  end.

(** Lines 132 to 147 of [run]: the updates of the display, with the
    encoding of the series between the first and the second. *)
Definition render (E : Env) (m : ModuleT) (current : float) (ser : list series)
  : Go Ctl :=
  e <- renderCurrent E m current ;;
  on_error e (log_Error m "Could not update current") ;;
  match json_Marshal E ser with
  | Err err =>
      log_Error m "could not encode data" err ;;
      ret Continue
  | OK b =>
      e <- Eval E "iotaWattSeries = %s" [b] ;;
      on_error e (log_Error m "Could not update series") ;;
      e <- Eval E "iotaWattChart.update({series: iotaWattSeries},true,true)" [] ;;
      on_error e (log_Error m "Could not update chart") ;;
      ret Continue
  end.

(** One pass through the loop of [run] after the select statement, lines
    109 to 147. *)
Definition pass (E : Env) (m : ModuleT) : Go Ctl :=
  r <- request E m ;;
  match r with
  | Err err =>
      log_Error m "Could not get current IoTaWatt data" err ;;
      ret Continue
  | OK raw =>
      agg <- lift (aggregate (conv_oor E) (Inputs (cfg m)) raw) ;;
      let '(current, ser) := agg in
      render E m current ser
  end.

(** The steps of the goroutine of [run]: the ticker is made, then the
    loop selects first and fetches when the ticker's case was taken. *)
Inductive worker_step (E : Env) (m : ModuleT) : Sys -> Sys -> Prop :=
| step_start s :
    worker s = Starting ->
    worker_step E m s
      (match NewTicker (Interval (cfg m)) with
       | Ret _ => with_worker Selecting s
       | Panicked p => with_worker (Crashed p) s
       end)
| step_select s c :
    worker s = Selecting ->
    In c (select_ready s) ->
    worker_step E m s (after_select c Fetching s)
| step_pass s :
    worker s = Fetching ->
    worker_step E m s (after_pass Selecting (pass E m) s).

Definition step (E : Env) (m : ModuleT) (s s' : Sys) : Prop :=
  worker_step E m s s' \/ env_step s s'.

End Coarse.

(** ** The ticker and the clock *)

(** The ticker of [run]: its period, the time it was made at, and the
    number of ticks it has sent or dropped so far. *)
Record Ticker : Type := { period : Z; made_at : Z; fired : Z }.

(** The time of its next tick: ticks come one period apart, the first one
    period after the ticker was made. *)
Definition next_tick (tk : Ticker) : Z :=
  made_at tk + (fired tk + 1) * period tk.

(** A system in time: the time is in nanoseconds, like [Interval]. *)
Record Timed : Type := { sys : Sys; clock : Z; ticker : option Ticker }.


(** The ticker after a step of the worker at time [t]:
    [ticker := time.NewTicker(m.cfg.Interval)] when [run] starts,
    [defer ticker.Stop()] when it returns or panics, and nothing else
    touches it. *)
Definition ticker_after (m : ModuleT) (t : Z) (before after : Worker)
    (tk : option Ticker) : option Ticker :=
  match after with
  | Exited | Crashed _ => None
  | Starting | Fetching | Selecting =>
      match before with
      | Starting => Some {| period := Interval (cfg m); made_at := t; fired := 0 |}
      | _ => tk
      end
  end.

(** The system with a tick in the one-slot channel of the ticker (a tick
    that finds the slot full is dropped). *)
Definition with_tick (s : Sys) : Sys :=
  {| worker := worker s; done_closed := done_closed s;
     tick_ready := true; trace := trace s |}.

(** The steps of a system in time, for the worker steps [wstep] of either
    version: the worker moves (in no time: the time a pass takes goes by
    in waiting steps before it), time goes by up to the next tick, the
    ticker fires when its time has come, or the host closes the module. *)
Inductive timed_step (wstep : Sys -> Sys -> Prop) (m : ModuleT)
  : Timed -> Timed -> Prop :=
| timed_worker T s' :
    wstep (sys T) s' ->
    timed_step wstep m T
      {| sys := s'; clock := clock T;
         ticker := ticker_after m (clock T) (worker (sys T)) (worker s') (ticker T) |}
| timed_wait T t :
    clock T <= t ->
    (forall tk, ticker T = Some tk -> t <= next_tick tk) ->
    timed_step wstep m T {| sys := sys T; clock := t; ticker := ticker T |}
| timed_tick T tk :
    ticker T = Some tk ->
    clock T = next_tick tk ->
    timed_step wstep m T
      {| sys := with_tick (sys T); clock := clock T;
         ticker := Some {| period := period tk; made_at := made_at tk;
                           fired := fired tk + 1 |} |}
| timed_close T s' :
    Close (sys T) = (Ret None, s') ->
    timed_step wstep m T {| sys := s'; clock := clock T; ticker := ticker T |}.

(** ** A laboratory environment

    A small world to run the module in: the device answers every request
    with [answer], its body decodes to [rows], and the UI refuses exactly
    the scripts [refused] names. *)

(** What [int(f)] gives on amd64 when [f] is out of range. *)
Definition amd64_oor (_ : float) : Z := int_min.

Definition lab_env (answer : res Response) (rows : res (list (list float)))
    (refused : string -> option error) : Env :=
  {| conv_oor := amd64_oor;
     url_Parse := fun s => OK {| Loc := s; RawQuery := "" |};
     URL_Parse := fun u ref => OK {| Loc := Loc u +:+ ref; RawQuery := "" |};
     Values_Encode := fun v => "select=" +:+ strings_Join (default [] (v !! "select")) ",";
     http_NewRequest := fun _ _ => None;
     json_Decode := fun _ => rows;
     json_Marshal := fun _ => OK "[]";
     strconv_FormatFloat := fun _ => "0.0";
     strconv_Itoa := fun _ => "0";
     filepath_Join_Clean := fun a b => a +:+ "/" +:+ b;
     os_ReadFile := fun _ _ => OK "";
     http_Do := fun _ _ _ => answer;
     ui_LoadCSS := fun _ _ => None;
     ui_LoadHTML := fun _ _ => None;
     ui_Eval := fun _ template _ => refused template |}.


(** One input, polled every two seconds. *)
Definition lab_config : Config :=
  {| URL := "http://iotawatt.local/"; Inputs := ["input1"]; Interval := 2 * Second |}.

Definition lab_info : Info := {| Name := "power"; Path := "/modules/iotawatt" |}.

(** The module [New] returns in the laboratory, with the query values [q]
    of either version. *)
Definition lab_module (q : Config -> gmap string (list string)) : ModuleT :=
  {| name := Name lab_info; path := Path lab_info; cfg := lab_config;
     baseURL := {| Loc := URL lab_config; RawQuery := "" |};
     qryVals := q lab_config |}.

(** An answer of the device with status [code]. *)
Definition status (code : Z) : res Response :=
  OK {| StatusCode := code; Body := "[]" |}.

(** A UI that accepts every script. *)
Definition never (_ : string) : option error := None.

(** A system with the worker at [w], before any effect. *)
Definition at_worker (w : Worker) (closed ready : bool) : Sys :=
  {| worker := w; done_closed := closed; tick_ready := ready; trace := [] |}.

(** A module configured with [interval: 0]. *)
Definition stalled_module : ModuleT :=
  {| name := "power"; path := "/modules/iotawatt";
     cfg := {| URL := "http://iotawatt.local/"; Inputs := ["input1"]; Interval := 0 |};
     baseURL := {| Loc := "http://iotawatt.local/"; RawQuery := "" |};
     qryVals := Fine.qryValues lab_config |}.

(** ** The vocabulary of the properties *)

(** The point a row gives to the series of channel 1, fine version. *)
Definition fine_point (row : list float) : list float :=
  [nth 0 row 0; nth 1 row 0 / 1000]%float.

(** The point a row gives to the series of channel 1, coarse version. *)
Definition coarse_point (row : list float) : list float :=
  [nth 0 row 0; nth 1 row 0]%float.

(** The rows the coarse version keeps: [int(row[0]) % 20 == 0]. *)
Definition kept (oor : float -> Z) (row : list float) : bool :=
  Z.rem (int_of_float64 oor (nth 0 row 0%float)) 20 =? 0.

(** A row with fewer than 1+n values. *)
Definition short (n : Z) (row : list float) : Prop :=
  Z.of_nat (length row) < 1 + n.

(** [c] only extends the trace, with events that satisfy [P]. *)
Definition adds {A} (P : Event -> Prop) (c : Go A) : Prop :=
  forall tr, exists evs, snd (c tr) = tr ++ evs /\ Forall P evs.

(** The events [request] may add: the one GET and the closing of the body. *)
Definition fetch_event (url : string) (e : Event) : Prop :=
  e = EvHttpDo "GET" url \/ e = EvBodyClose.

(** The URL [request] sends to, when the query path resolves. *)
Definition target (E : Env) (m : ModuleT) : string :=
  match URL_Parse E (baseURL m) apiQueryPath with
  | OK u => URL_String {| Loc := Loc u; RawQuery := Values_Encode E (qryVals m) |}
  | Err _ => ""
  end.

(** The entry [log_Error] writes. *)
Definition log_entry (m : ModuleT) (msg : string) (err : error) : Event :=
  EvLogError msg ["module"; "iotawatt"; "id"; name m; "error"; Error err].





(** The three updates of the display. *)
Inductive Stage : Type := CurrentValue | SeriesAssign | ChartRefresh.

(** The update a script makes, read off its template. *)
Definition stage_of (template : string) : option Stage :=
  if String.prefix "document.querySelector('#%s .current" template
  then Some CurrentValue
  else if String.eqb template "iotaWattSeries = %s" then Some SeriesAssign
  else if String.prefix "iotaWattChart.update(" template then Some ChartRefresh
  else None.

(** The updates made in [evs], in order. *)
Definition stages (evs : list Event) : list Stage :=
  omap (fun e => match e with
                 | EvEval template _ => stage_of template
                 | _ => None
                 end) evs.

(** The message [run] logs when an update fails. *)
Definition stage_msg (st : Stage) : string :=
  match st with
  | CurrentValue => "Could not update current"
  | SeriesAssign => "Could not update series"
  | ChartRefresh => "Could not update chart"
  end.

(** Walking the events [evs] that follow the trace [tr]: every script the
    UI refused is followed at once by the log entry of its update, with the
    UI's error. *)
Fixpoint failures_logged (E : Env) (m : ModuleT) (tr evs : list Event) : Prop :=
  match evs with
  | [] => True
  | EvEval template args :: rest =>
      match ui_Eval E tr template args with
      | Some err =>
          exists st, stage_of template = Some st
                     /\ head rest = Some (log_entry m (stage_msg st) err)
      | None => True
      end
      /\ failures_logged E m (tr ++ [EvEval template args]) rest
  | e :: rest => failures_logged E m (tr ++ [e]) rest
  end.

(** A UI that refuses every script. *)
Definition refuse_all (_ : string) : option error := Some (foreign "no display").

(** A row with a timestamp and a value for each of [n] channels. *)
Definition long (n : nat) (row : list float) : Prop := (1 + n <= length row)%nat.

(** The point a row gives to the series of channel [j], counted from 0. *)
Definition fine_point_at (j : nat) (row : list float) : list float :=
  [nth 0 row 0; nth (S j) row 0 / 1000]%float.

Definition coarse_point_at (j : nat) (row : list float) : list float :=
  [nth 0 row 0; nth (S j) row 0]%float.

(** The sum of the [n] channel values of a row, added from the left
    starting at 0: in kilowatts, and in watts. *)
Definition fine_total (n : nat) (row : list float) : float :=
  fold_left (fun acc v => acc + v / 1000)%float (take n (tail row)) 0%float.

Definition coarse_total (n : nat) (row : list float) : float :=
  fold_left (fun acc v => acc + v)%float (take n (tail row)) 0%float.

(** The kind of an effect. *)
Inductive EvKind : Type :=
| KReadFile | KLoadCSS | KLoadHTML | KEval | KHttpDo | KBodyClose | KLogError.

Definition kind_of (e : Event) : EvKind :=
  match e with
  | EvReadFile _ => KReadFile
  | EvLoadCSS _ => KLoadCSS
  | EvLoadHTML _ => KLoadHTML
  | EvEval _ _ => KEval
  | EvHttpDo _ _ => KHttpDo
  | EvBodyClose => KBodyClose
  | EvLogError _ _ => KLogError
  end.

(** The steps of [New] after the URL is parsed, in order. *)
Definition new_steps : list EvKind :=
  [KReadFile; KLoadCSS; KReadFile; KLoadHTML; KEval].

(** The three scripts of [renderCurrent] for a unit and the other unit. *)
Definition current_scripts (m : ModuleT) (ws ds unit other : string) : list Event :=
  [EvEval "document.querySelector('#%s .current').innerHTML = '%s<sel>.%s %s</sel>'"
     [name m; ws; ds; unit];
   EvEval "document.querySelector('#%s .current').classList.remove('%s')"
     [name m; other];
   EvEval "document.querySelector('#%s .current').classList.add('%s')"
     [name m; unit]].

(** What the outside world has against the effect [e] after the trace
    [tr]: the error it answers with, if it refuses. *)
Definition refusal (E : Env) (tr : list Event) (e : Event) : option error :=
  match e with
  | EvReadFile p =>
      match os_ReadFile E tr p with
      | OK _ => None
      | Err err => Some err
      end
  | EvLoadCSS css => ui_LoadCSS E tr css
  | EvLoadHTML html => ui_LoadHTML E tr html
  | EvEval template args => ui_Eval E tr template args
  | EvHttpDo method url =>
      match http_Do E tr method url with
      | OK _ => None
      | Err err => Some err
      end
  | EvBodyClose | EvLogError _ _ => None
  end.

(** Of the effects [evs], tried in order after [tr], those that are made
    when the first refused one is the last: all of them up to and
    including the first refused one. *)
Fixpoint attempted (E : Env) (tr evs : list Event) : list Event :=
  match evs with
  | [] => []
  | e :: rest =>
      e :: match refusal E tr e with
           | Some _ => []
           | None => attempted E (tr ++ [e]) rest
           end
  end.

(** The first refused one of the effects [evs], tried in order after
    [tr]: its position, from 0, and the error. *)
Fixpoint first_refused (E : Env) (tr evs : list Event) : option (nat * error) :=
  match evs with
  | [] => None
  | e :: rest =>
      match refusal E tr e with
      | Some err => Some (0%nat, err)
      | None =>
          match first_refused E (tr ++ [e]) rest with
          | Some (k, err) => Some (S k, err)
          | None => None
          end
      end
  end.

(** The effects [evs], made in order after [tr], are all accepted. *)
Fixpoint all_accepted (E : Env) (tr evs : list Event) : Prop :=
  match evs with
  | [] => True
  | e :: rest => refusal E tr e = None /\ all_accepted E (tr ++ [e]) rest
  end.

(** The text [os.ReadFile] gives for [p] after [tr]. *)
Definition file_text (E : Env) (tr : list Event) (p : string) : string :=
  match os_ReadFile E tr p with
  | OK text => text
  | Err _ => ""
  end.

(** The five effects of a [New] that nothing refuses, after [tr]: the
    style sheet of the module's directory is read and what was read is
    loaded, its page is read and what was read is loaded, and the scripts
    of the module are invoked. *)
Definition new_calls (E : Env) (info : Info) (tr : list Event) : list Event :=
  let css_path := filepath_Join_Clean E (Path info) "assets/style.css" in
  let css := file_text E tr css_path in
  let html_path := filepath_Join_Clean E (Path info) "assets/index.html" in
  let html := file_text E ((tr ++ [EvReadFile css_path]) ++ [EvLoadCSS css]) html_path in
  [EvReadFile css_path; EvLoadCSS css; EvReadFile html_path; EvLoadHTML html;
   EvEval "invokeModuleScripts(%q)" [Name info]].

(** The error [New] returns when the step at position [k] of its five is
    refused with [err]: the two reads and the loading of the page are
    wrapped, the loading of the style sheet and the scripts are not. *)
Definition new_wrap (k : nat) (err : error) : error :=
  match k with
  | 0%nat => fmt_Errorf_w "iotawatt: could not read css: " err
  | 2%nat => fmt_Errorf_w "iotawatt: could not read html: " err
  | 3%nat => fmt_Errorf_w "iotawatt: could not load html: " err
  | _ => err
  end.

(** What [New] gives for the query values [q] after [tr]: the wrapped
    error and no effect when the URL does not parse; otherwise its steps up
    to the first refused one, with that step's error, or all five and the
    module. *)
Definition new_outcome (E : Env) (c : Config) (info : Info) (tr : list Event)
    (q : gmap string (list string)) : Outcome (res ModuleT) * list Event :=
  match url_Parse E (URL c) with
  | Err err => (Ret (Err (fmt_Errorf_w "could not parse url: " err)), tr)
  | OK u =>
      (Ret match first_refused E tr (new_calls E info tr) with
           | Some (k, err) => Err (new_wrap k err)
           | None => OK {| name := Name info; path := Path info; cfg := c;
                           baseURL := u; qryVals := q |}
           end,
       tr ++ attempted E tr (new_calls E info tr))
  end.

(** The effects [evs], tried after [tr], stop at the first refusal: what
    is made of them is all of them and all are accepted, or it ends with
    the first refused one, and those before it are accepted. *)
Definition stops_at_first_refusal (E : Env) (tr evs : list Event) : Prop :=
  match first_refused E tr evs with
  | Some (k, err) =>
      attempted E tr evs = take (S k) evs
      /\ (k < length evs)%nat
      /\ all_accepted E tr (take k evs)
      /\ exists e, evs !! k = Some e /\ refusal E (tr ++ take k evs) e = Some err
  | None => attempted E tr evs = evs /\ all_accepted E tr evs
  end.

(** The number [renderCurrent] shows for [watt]: kilowatts above 100,
    watts otherwise. *)
Definition shown (watt : float) : float :=
  if (100 <? watt)%float then (watt / 1000)%float else watt.

(** Its integer part and its first decimal, as [renderCurrent] takes
    them: [int(watt)] and [int(watt*10) - int(watt)*10]. *)
Definition shown_int (E : Env) (watt : float) : Z :=
  int_of_float64 (conv_oor E) (shown watt).

Definition shown_tenth (E : Env) (watt : float) : Z :=
  wrap_int (int_of_float64 (conv_oor E) (shown watt * 10)%float
            - wrap_int (shown_int E watt * 10)).

(** A worker that has returned or panicked. *)
Definition stopped (s : Sys) : Prop :=
  worker s = Exited \/ exists p, worker s = Crashed p.

(** The steps of a system while the ticker delivers nothing: the worker
    moves, or the host closes the module. *)
Definition untimed_step (wstep : Sys -> Sys -> Prop) (s s' : Sys) : Prop :=
  wstep s s' \/ Close s = (Ret None, s').

(** Every value [c] returns satisfies [P]. *)
Definition returns {A} (P : A -> Prop) (c : Go A) : Prop :=
  forall tr a tr', c tr = (Ret a, tr') -> P a.

(** The messages [run] logs. *)
Definition run_messages : list string :=
  ["Could not get current IoTaWatt data"; "could not encode data";
   "Could not update current"; "Could not update series"; "Could not update chart"].

(** The effects [run] has: requests, closed bodies, scripts, and log
    entries under one of its messages, keyed with the module's name. *)
Definition worker_effect (m : ModuleT) (e : Event) : Prop :=
  match e with
  | EvHttpDo _ _ | EvBodyClose | EvEval _ _ => True
  | EvLogError msg kv =>
      In msg run_messages
      /\ exists text, kv = ["module"; "iotawatt"; "id"; name m; "error"; text]
  | EvReadFile _ | EvLoadCSS _ | EvLoadHTML _ => False
  end.

(** Walking the events [evs] that follow the trace [tr], with [opened]
    telling whether the last event was a GET the transport answered: the
    body of an answered GET is closed by the very next event, nothing else
    closes a body, and no body is open at the end. *)
Fixpoint bodies_walk (E : Env) (opened : bool) (tr evs : list Event) : Prop :=
  match evs with
  | [] => opened = false
  | EvHttpDo method url :: rest =>
      opened = false
      /\ bodies_walk E (match http_Do E tr method url with
                        | OK _ => true
                        | Err _ => false
                        end)
           (tr ++ [EvHttpDo method url]) rest
  | EvBodyClose :: rest =>
      opened = true /\ bodies_walk E false (tr ++ [EvBodyClose]) rest
  | e :: rest =>
      opened = false /\ bodies_walk E false (tr ++ [e]) rest
  end.

Definition bodies_closed (E : Env) (tr evs : list Event) : Prop :=
  bodies_walk E false tr evs.

(** [c] only extends the trace and closes every body it opens. *)
Definition closes {A} (E : Env) (c : Go A) : Prop :=
  forall tr, exists evs, snd (c tr) = tr ++ evs /\ bodies_closed E tr evs.

(** An event that neither opens nor closes a body. *)
Definition bodiless (e : Event) : Prop :=
  match e with
  | EvHttpDo _ _ | EvBodyClose => False
  | _ => True
  end.

(** A name without a comma. *)
Fixpoint comma_free (s : string) : bool :=
  match s with
  | EmptyString => true
  | String c s' => negb (Ascii.eqb c ","%char) && comma_free s'
  end.

(** The names between the commas of [s]. *)
Fixpoint split_commas (s : string) : list string :=
  match s with
  | EmptyString => [""]
  | String c s' =>
      if Ascii.eqb c ","%char then "" :: split_commas s'
      else match split_commas s' with
           | h :: t => String c h :: t
           | [] => [String c ""]
           end
  end.

(** [s] without its last character, when that is a closing bracket. *)
Fixpoint strip_close (s : string) : option string :=
  match s with
  | EmptyString => None
  | String c s' =>
      match s' with
      | EmptyString => if Ascii.eqb c "]"%char then Some "" else None
      | String _ _ => String c <$> strip_close s'
      end
  end.

(** Reading a select list back: the names between the brackets. *)
Definition parse_select (v : string) : option (list string) :=
  match v with
  | String c rest =>
      if Ascii.eqb c "["%char then split_commas <$> strip_close rest else None
  | EmptyString => None
  end.

(** What the coarse version needs of a row: a timestamp, and a value for
    each of the [n] inputs when the row is kept. *)
Definition coarse_row_ok (oor : float -> Z) (n : nat) (row : list float) : Prop :=
  long 0 row /\ (kept oor row = true -> long n row).

(** What the coarse version needs of the list of rows for the total: with
    an input or more, a last row with a value for each input. *)
Definition coarse_last_ok (n : nat) (raw : list (list float)) : Prop :=
  n = 0%nat \/ exists row, last raw = Some row /\ long n row.

(** The worker is in its loop. *)
Definition running (s : Sys) : Prop :=
  worker s = Fetching \/ worker s = Selecting.

(** A system started at [t0] is on schedule when time has not run
    backwards and, while the worker is in its loop, its ticker is there
    with the configured interval as its period, was made after [t0], and
    the time lies between its last tick and its next one; when the worker
    is not in its loop there is no ticker. *)
Definition on_schedule (m : ModuleT) (t0 : Z) (T : Timed) : Prop :=
  t0 <= clock T
  /\ match ticker T with
     | Some tk =>
         running (sys T)
         /\ period tk = Interval (cfg m) /\ 0 < period tk
         /\ t0 <= made_at tk /\ 0 <= fired tk
         /\ made_at tk + fired tk * period tk <= clock T <= next_tick tk
     | None => ~ running (sys T)
     end.

(** What the timed steps need of the worker steps of a version: a stopped
    worker does not move, no step leads back to the start, and the worker
    enters its loop only with a positive interval. *)
Definition loop_steps (m : ModuleT) (wstep : Sys -> Sys -> Prop) : Prop :=
  forall s s', wstep s s' ->
    ~ stopped s
    /\ worker s' <> Starting
    /\ (worker s = Starting -> running s' -> 0 < Interval (cfg m)).



(** * Properties *)

(** ** Conversions *)

Example int_truncates_toward_zero :
  int_of_float64 amd64_oor 120.7%float = 120
  /\ int_of_float64 amd64_oor (-120.7)%float = -120
  /\ int_of_float64 amd64_oor 1e30%float = int_min
  /\ Coarse.skipped amd64_oor 1700000010%float = true
  /\ Coarse.skipped amd64_oor 1700000020%float = false.
Proof. repeat split; vm_compute; reflexivity. Qed.

(** ** The two rows of the specification *)

Example fine_two_rows :
  Fine.aggregate ["input1"] [[100; 500]; [120; 700]]%float
  = Ret (0.7%float, [ {| Data := [[100; 0.5]; [120; 0.7]]%float |} ]).
Proof. vm_compute. reflexivity. Qed.

Example coarse_two_rows :
  Coarse.aggregate amd64_oor ["input1"] [[100; 500]; [120; 700]]%float
  = Ret (700%float, [ {| Data := [[100; 500]; [120; 700]]%float |} ]).
Proof. vm_compute. reflexivity. Qed.

Example coarse_empty :
  Coarse.aggregate amd64_oor ["input1"] []
  = Panicked (IndexOutOfRange (-1) 0).
Proof. vm_compute. reflexivity. Qed.

Example fine_new_ok :
  fst (Fine.New (lab_env (status 200) (OK []) never) lab_config lab_info [])
  = Ret (OK (lab_module Fine.qryValues)).
Proof. vm_compute. reflexivity. Qed.

(** ** Slices and loops *)

Lemma index_ok {A} (s : list A) (i : nat) (x : A) :
  s !! i = Some x -> index s (Z.of_nat i) = Ret x.
Proof.
  intros H. unfold index.
  destruct (Z.ltb_spec (Z.of_nat i) 0) as [Hneg | _]; [lia |].
  rewrite Nat2Z.id, H. reflexivity.
Qed.

Lemma index_out {A} (s : list A) (i : Z) :
  i < 0 \/ Z.of_nat (length s) <= i ->
  index s i = Panicked (IndexOutOfRange i (Z.of_nat (length s))).
Proof.
  intros H. unfold index.
  destruct (Z.ltb_spec i 0) as [Hneg | Hpos]; [reflexivity |].
  rewrite (lookup_ge_None_2 s (Z.to_nat i)) by lia. reflexivity.
Qed.

Lemma index_in {A} (s : list A) (i : Z) :
  0 <= i < Z.of_nat (length s) -> exists x, index s i = Ret x /\ s !! Z.to_nat i = Some x.
Proof.
  intros H.
  destruct (lookup_lt_is_Some_2 s (Z.to_nat i)) as [x Hx]; [lia |].
  exists x. split; [| exact Hx].
  rewrite <- (Z2Nat.id i) by lia. apply index_ok. exact Hx.
Qed.

Lemma for_each_app {A S} (xs ys : list A) (body : A -> S -> Outcome S) (st : S) :
  for_each (xs ++ ys) body st
  = do st' <- for_each xs body st; for_each ys body st'.
Proof.
  revert st. induction xs as [| x xs IH]; intros st; simpl; [reflexivity |].
  destruct (body x st) as [st' | p]; simpl; [apply IH | reflexivity].
Qed.

Lemma index_last {A} (s : list A) (x : A) :
  last s = Some x -> index s (Z.of_nat (length s) - 1) = Ret x.
Proof.
  intros H. rewrite last_lookup in H.
  destruct s as [| a s]; [discriminate |].
  replace (Z.of_nat (length (a :: s)) - 1) with (Z.of_nat (Nat.pred (length (a :: s))))
    by (simpl; lia).
  apply index_ok. exact H.
Qed.

Lemma length_make_series (n : nat) : length (make_series n) = n.
Proof. apply length_replicate. Qed.

Lemma push_point_ok (ser : list series) (k : Z) (p : list float) :
  0 <= k < Z.of_nat (length ser) ->
  exists ser', push_point ser k p = Ret ser' /\ length ser' = length ser.
Proof.
  intros H. unfold push_point.
  destruct (index_in ser k H) as (s & -> & _). simpl.
  eexists. split; [reflexivity |]. apply length_insert.
Qed.

(** ** Empty responses *)

Lemma fine_aggregate_nil (inputs : list string) :
  Fine.aggregate inputs [] = Ret (0%float, make_series (length inputs)).
Proof. reflexivity. Qed.

Lemma coarse_total_nil (inputs : list string) (i : Z) (rest : list Z) (c : float) :
  for_each (i :: rest) (Coarse.total_step [] 0) c
  = Panicked (IndexOutOfRange (-1) 0).
Proof. reflexivity. Qed.

(** C1. An empty list of rows: the fine version reports a total of 0 and an
    empty series for each channel; the coarse version does so only when no
    input is configured, and with one input or more its first statement
    indexes the empty list at -1 and panics. *)
Theorem C1_empty_rows (oor : float -> Z) (inputs : list string) :
  Fine.aggregate inputs [] = Ret (0%float, replicate (length inputs) {| Data := [] |})
  /\ Coarse.aggregate oor inputs []
     = match inputs with
       | [] => Ret (0%float, [])
       | _ :: _ => Panicked (IndexOutOfRange (-1) 0)
       end.
Proof.
  split; [reflexivity |].
  destruct inputs as [| a inputs]; [reflexivity |].
  unfold Coarse.aggregate.
  replace (seqZ 1 (Z.of_nat (length (a :: inputs))))
    with (1 :: seqZ 2 (Z.of_nat (length inputs))).
  - reflexivity.
  - rewrite (seqZ_cons 1 (Z.of_nat (length (a :: inputs)))) by (simpl; lia).
    f_equal. f_equal. simpl length. lia.
Qed.

Example coarse_empty_rows_crash_worker :
  after_pass Selecting
    (Coarse.pass (lab_env (status 200) (OK []) never) (lab_module Coarse.qryValues))
    (at_worker Fetching false false)
  = crashed (IndexOutOfRange (-1) 0) (at_worker Fetching false false)
      [EvHttpDo "GET" "http://iotawatt.local/query?select=[time.utc.unix,input1]";
       EvBodyClose].
Proof. vm_compute. reflexivity. Qed.

Example fine_empty_rows_render :
  after_pass Selecting
    (Fine.pass (lab_env (status 200) (OK []) never) (lab_module Fine.qryValues))
    (at_worker Fetching false false)
  = settled Selecting (at_worker Fetching false false)
      [EvHttpDo "GET" "http://iotawatt.local/query?select=[time.utc.unix,input1]";
       EvBodyClose;
       EvEval "document.querySelector('#%s .current .number').innerText = '%s'"
         ["power"; "0.0"];
       EvEval "iotaWattSeries = %s" ["[]"];
       EvEval "iotaWattChart.update({series: iotaWattSeries})" []].
Proof. vm_compute. reflexivity. Qed.


(** ** One configured input *)

Lemma fine_row_one (r0 r1 c : float) (row : list float) (pts : list (list float)) :
  Fine.row_step 1 (r0 :: r1 :: row) (c, [ {| Data := pts |} ])
  = Ret ((0 + r1 / 1000)%float, [ {| Data := pts ++ [[r0; r1 / 1000]%float] |} ]).
Proof. reflexivity. Qed.

Lemma fine_rows_one (raw : list (list float)) (c : float) (pts : list (list float)) :
  Forall (fun row => (2 <= length row)%nat) raw ->
  for_each raw (Fine.row_step 1) (c, [ {| Data := pts |} ])
  = Ret (match last raw with
         | Some row => (0 + nth 1 row 0 / 1000)%float
         | None => c
         end,
         [ {| Data := pts ++ map fine_point raw |} ]).
Proof.
  intros Hraw. revert c pts.
  induction Hraw as [| row raw Hrow Hraw IH]; intros c pts.
  - simpl. rewrite app_nil_r. reflexivity.
  - destruct row as [| r0 [| r1 row]]; simpl in Hrow; try lia.
    cbn [for_each]. rewrite fine_row_one. cbn [obind]. rewrite IH.
    rewrite <- app_assoc. cbn [app map].
    destruct raw as [| row' raw']; [reflexivity |].
    rewrite last_cons_cons. destruct (last (row' :: raw')) eqn:Hl; [reflexivity |].
    apply last_None in Hl. discriminate.
Qed.

(** C5. The fine version on the rows [[100,500],[120,700]] with one input
    gives the series [[100,0.5],[120,0.7]] and the total 0.7; with one
    input and rows of two values or more, every row gives the point
    (timestamp, value / 1000) and the total is the converted value of the
    last row. *)
Theorem C5_fine_example :
  Fine.aggregate ["input1"] [[100; 500]; [120; 700]]%float
  = Ret (0.7%float, [ {| Data := [[100; 0.5]; [120; 0.7]]%float |} ])
  /\ forall (input : string) (raw : list (list float)),
       Forall (fun row => (2 <= length row)%nat) raw ->
       Fine.aggregate [input] raw
       = Ret (match last raw with
              | Some row => (0 + nth 1 row 0 / 1000)%float
              | None => 0%float
              end,
              [ {| Data := map fine_point raw |} ]).
Proof.
  split; [vm_compute; reflexivity |].
  intros input raw Hraw. unfold Fine.aggregate.
  change (Z.of_nat (length [input])) with 1.
  change (make_series (length [input])) with [ {| Data := [] |} ].
  apply (fine_rows_one raw 0%float [] Hraw).
Qed.

Lemma C5_fine_example_witness :
  Fine.aggregate ["input2"] [[140; 900]; [160; 250; 7]]%float
  = Ret ((0 + 250 / 1000)%float,
         [ {| Data := [[140; 900 / 1000]; [160; 250 / 1000]]%float |} ]).
Proof.
  refine (proj2 C5_fine_example "input2" [[140; 900]; [160; 250; 7]]%float _).
  repeat constructor.
Defined.


Lemma coarse_row_one (oor : float -> Z) (r0 r1 : float) (row : list float)
    (pts : list (list float)) :
  Coarse.row_step oor 1 (r0 :: r1 :: row) [ {| Data := pts |} ]
  = Ret [ {| Data := if kept oor (r0 :: r1 :: row)
                     then pts ++ [[r0; r1]] else pts |} ].
Proof.
  unfold Coarse.row_step, kept, Coarse.skipped. cbn [nth].
  change (index (r0 :: r1 :: row) 0) with (Ret r0). cbn [obind].
  destruct (Z.rem (int_of_float64 oor r0) 20 =? 0); reflexivity.
Qed.

Lemma coarse_rows_one (oor : float -> Z) (raw : list (list float))
    (pts : list (list float)) :
  Forall (fun row => (2 <= length row)%nat) raw ->
  for_each raw (Coarse.row_step oor 1) [ {| Data := pts |} ]
  = Ret [ {| Data := pts ++ map coarse_point (List.filter (kept oor) raw) |} ].
Proof.
  intros Hraw. revert pts.
  induction Hraw as [| row raw Hrow Hraw IH]; intros pts.
  - simpl. rewrite app_nil_r. reflexivity.
  - destruct row as [| r0 [| r1 row]]; simpl in Hrow; try lia.
    cbn [for_each List.filter]. rewrite coarse_row_one. cbn [obind].
    rewrite IH.
    destruct (kept oor (r0 :: r1 :: row)); [| reflexivity].
    rewrite <- app_assoc. reflexivity.
Qed.

Lemma coarse_total_one (raw : list (list float)) (row : list float) :
  last raw = Some row -> (2 <= length row)%nat ->
  for_each [1] (Coarse.total_step raw (Z.of_nat (length raw))) 0%float
  = Ret (0 + nth 1 row 0)%float.
Proof.
  intros Hlast Hrow. cbn [for_each]. unfold Coarse.total_step.
  rewrite (index_last raw row Hlast). cbn [obind].
  destruct row as [| r0 [| r1 row]]; simpl in Hrow; try lia.
  reflexivity.
Qed.

(** C6. The coarse version on the rows [[100,500],[120,700]] with one input
    gives the series [[100,500],[120,700]] and the total 700; with one
    input and a non-empty list of rows of two values or more, the total is
    the value of the last row in watts, and the series holds the point
    (timestamp, value) of exactly the rows whose timestamp, as an integer,
    is a multiple of 20. *)
Theorem C6_coarse_example :
  (forall oor : float -> Z,
     Coarse.aggregate oor ["input1"] [[100; 500]; [120; 700]]%float
     = Ret (700%float, [ {| Data := [[100; 500]; [120; 700]]%float |} ]))
  /\ forall (oor : float -> Z) (input : string) (raw : list (list float))
            (row : list float),
       last raw = Some row ->
       Forall (fun row => (2 <= length row)%nat) raw ->
       Coarse.aggregate oor [input] raw
       = Ret ((0 + nth 1 row 0)%float,
              [ {| Data := map coarse_point (List.filter (kept oor) raw) |} ]).
Proof.
  split; [intros oor; vm_compute; reflexivity |].
  intros oor input raw row Hlast Hraw. unfold Coarse.aggregate.
  change (Z.of_nat (length [input])) with 1.
  change (make_series (length [input])) with [ {| Data := [] |} ].
  change (seqZ 1 1) with [1].
  rewrite (coarse_total_one raw row Hlast).
  - cbn [obind]. rewrite (coarse_rows_one oor raw [] Hraw). reflexivity.
  - rewrite Forall_forall in Hraw. apply Hraw.
    apply last_Some_elem_of. exact Hlast.
Qed.

Lemma C6_coarse_example_witness :
  Coarse.aggregate amd64_oor ["input2"] [[140; 900]; [150; 300]; [160; 250; 7]]%float
  = Ret ((0 + 250)%float, [ {| Data := [[140; 900]; [160; 250]]%float |} ]).
Proof.
  refine (proj2 C6_coarse_example amd64_oor "input2"
            [[140; 900]; [150; 300]; [160; 250; 7]]%float [160; 250; 7]%float
            eq_refl _).
  repeat constructor.
Defined.


(** ** Closing the module *)

(** C10, as claimed, fails: the second call of [Close] on a freshly started
    module panics. *)
Lemma C10_second_close_panics :
  fst (Close (spawned [])) = Ret None
  /\ fst (Close (snd (Close (spawned [])))) = Panicked CloseOfClosedChannel.
Proof. split; reflexivity. Qed.

(** C10, amended. The first call of [Close] closes the stop signal and
    returns nil, leaving the rest of the system as it was; a call on a
    closed signal panics with "close of closed channel" and changes
    nothing, so a second call is safe in no sense. *)
Theorem C10_close_once (s : Sys) :
  done_closed s = false ->
  Close s = (Ret None,
             {| worker := worker s; done_closed := true;
                tick_ready := tick_ready s; trace := trace s |})
  /\ Close (snd (Close s)) = (Panicked CloseOfClosedChannel, snd (Close s)).
Proof.
  intros Hopen. unfold Close. rewrite Hopen. simpl. split; reflexivity.
Qed.

Lemma C10_close_once_witness :
  Close (spawned [])
  = (Ret None, {| worker := Starting; done_closed := true;
                  tick_ready := false; trace := [] |})
  /\ Close (snd (Close (spawned [])))
     = (Panicked CloseOfClosedChannel, snd (Close (spawned []))).
Proof. exact (C10_close_once (spawned []) eq_refl). Defined.

(** ** The select statement *)

Lemma select_ready_cases (s : Sys) (c : Case) :
  In c (select_ready s) <->
  (c = CaseDone /\ done_closed s = true) \/ (c = CaseTick /\ tick_ready s = true).
Proof.
  unfold select_ready.
  destruct (done_closed s), (tick_ready s), c; simpl; intuition congruence.
Qed.

Lemma fine_select_inv (E : Env) (m : ModuleT) (s s' : Sys) :
  worker s = Selecting -> Fine.worker_step E m s s' ->
  exists c, In c (select_ready s) /\ s' = after_select c Fetching s.
Proof.
  intros Hw Hstep.
  destruct Hstep as [s Hs | s Hs | s c Hs Hc]; try congruence.
  exists c. split; [exact Hc | reflexivity].
Qed.

Lemma coarse_select_inv (E : Env) (m : ModuleT) (s s' : Sys) :
  worker s = Selecting -> Coarse.worker_step E m s s' ->
  exists c, In c (select_ready s) /\ s' = after_select c Fetching s.
Proof.
  intros Hw Hstep.
  destruct Hstep as [s Hs | s c Hs Hc | s Hs]; try congruence.
  exists c. split; [exact Hc | reflexivity].
Qed.

(** C4, as claimed, fails: with the stop signal closed and a tick pending,
    the coarse worker may take the ticker's case and send a new request. *)
Lemma C4_tick_taken_after_cancel :
  let E := lab_env (status 200) (OK [[100; 500]]%float) never in
  let m := lab_module Coarse.qryValues in
  let s := at_worker Selecting true true in
  let s1 := after_select CaseTick Fetching s in
  let s2 := after_pass Selecting (Coarse.pass E m) s1 in
  done_closed s = true
  /\ Coarse.worker_step E m s s1
  /\ Coarse.worker_step E m s1 s2
  /\ head (trace s2)
     = Some (EvHttpDo "GET" "http://iotawatt.local/query?select=[time.utc.unix,input1]").
Proof.
  cbv zeta. split; [reflexivity |]. split; [| split].
  - apply Coarse.step_select; [reflexivity |]. simpl. auto.
  - apply Coarse.step_pass. reflexivity.
  - vm_compute. reflexivity.
Qed.

(** C4, amended. A worker blocked in the select statement after the stop
    signal was closed can always exit, and exits without a new fetch when
    no tick is pending; when a tick is pending too, Go's select may take
    either case, so the only other step consumes the tick and starts one
    more pass.  Both versions of [run] select this way. *)
Theorem C4_select_after_cancel (E : Env) (m : ModuleT) (s : Sys) :
  worker s = Selecting ->
  done_closed s = true ->
  (forall s', Fine.worker_step E m s s' \/ Coarse.worker_step E m s s' ->
     (worker s' = Exited /\ trace s' = trace s)
     \/ (tick_ready s = true /\ worker s' = Fetching /\ tick_ready s' = false
         /\ trace s' = trace s))
  /\ Fine.worker_step E m s (with_worker Exited s)
  /\ Coarse.worker_step E m s (with_worker Exited s)
  /\ (tick_ready s = true ->
      Fine.worker_step E m s (after_select CaseTick Fetching s)
      /\ Coarse.worker_step E m s (after_select CaseTick Fetching s)).
Proof.
  intros Hw Hdone. split; [| split; [| split]].
  - intros s' Hstep.
    assert (exists c, In c (select_ready s) /\ s' = after_select c Fetching s)
      as (c & Hc & ->).
    { destruct Hstep as [H | H];
        [eapply fine_select_inv | eapply coarse_select_inv]; eauto. }
    apply select_ready_cases in Hc as [[-> _] | [-> Hready]].
    + left. split; reflexivity.
    + right. repeat split; [exact Hready | reflexivity ..].
  - apply (Fine.step_select E m s CaseDone Hw).
    apply select_ready_cases. left. split; [reflexivity | exact Hdone].
  - apply (Coarse.step_select E m s CaseDone Hw).
    apply select_ready_cases. left. split; [reflexivity | exact Hdone].
  - intros Hready. split.
    + apply (Fine.step_select E m s CaseTick Hw).
      apply select_ready_cases. right. split; [reflexivity | exact Hready].
    + apply (Coarse.step_select E m s CaseTick Hw).
      apply select_ready_cases. right. split; [reflexivity | exact Hready].
Qed.

Lemma C4_select_after_cancel_witness :
  Fine.worker_step (lab_env (status 200) (OK []) never) (lab_module Fine.qryValues)
    (at_worker Selecting true false)
    (with_worker Exited (at_worker Selecting true false))
  /\ Coarse.worker_step (lab_env (status 200) (OK []) never) (lab_module Fine.qryValues)
       (at_worker Selecting true false)
       (with_worker Exited (at_worker Selecting true false)).
Proof.
  pose proof (C4_select_after_cancel
                (lab_env (status 200) (OK []) never)
                (lab_module Fine.qryValues)
                (at_worker Selecting true false) eq_refl eq_refl) as H.
  split; [exact (proj1 (proj2 H)) | exact (proj1 (proj2 (proj2 H)))].
Defined.

(** ** Fetching *)

Lemma status_error_is_not_decode_error (e : error) :
  Error (errors_New "expected status code")
  <> Error (fmt_Errorf_w "could not parse data: " e).
Proof. simpl. discriminate. Qed.

Lemma request_succeeds_iff (E : Env) (m : ModuleT) (tr : list Event)
    (raw : list (list float)) :
  fst (request E m tr) = Ret (OK raw)
  <-> exists u resp,
        URL_Parse E (baseURL m) apiQueryPath = OK u
        /\ http_NewRequest E "GET"
             (URL_String {| Loc := Loc u; RawQuery := Values_Encode E (qryVals m) |})
           = None
        /\ http_Do E tr "GET"
             (URL_String {| Loc := Loc u; RawQuery := Values_Encode E (qryVals m) |})
           = OK resp
        /\ StatusCode resp = 200
        /\ json_Decode E (Body resp) = OK raw.
Proof.
  unfold request, gbind, call, defer, ret. split.
  - destruct (URL_Parse E (baseURL m) apiQueryPath) as [u | e0]; [| discriminate].
    destruct (http_NewRequest E "GET" _) as [e1 |] eqn:Hreq; [discriminate |].
    destruct (http_Do E tr "GET" _) as [resp | e2] eqn:Hdo; [| discriminate].
    destruct (Z.eqb_spec (StatusCode resp) 200) as [H200 | H200]; [| discriminate].
    destruct (json_Decode E (Body resp)) as [raw' | e3] eqn:Hdec; [| discriminate].
    simpl. intros H. injection H as <-.
    exists u, resp. repeat split; assumption.
  - intros (u & resp & -> & -> & -> & H200 & Hdec).
    rewrite H200, Hdec. reflexivity.
Qed.

(** C7, as claimed, fails: a response with status 204, a 2xx status, whose
    body decodes is refused with the status error. *)
Lemma C7_status_204_rejected :
  let E := lab_env (status 204) (OK [[100; 500]]%float) never in
  (200 <=? 204) && (204 <? 300) = true
  /\ json_Decode E "[]" = OK [[100; 500]]%float
  /\ fst (request E (lab_module Fine.qryValues) [])
     = Ret (Err (errors_New "expected status code")).
Proof. cbv zeta. repeat split. Qed.

(** C7, amended. When the URL resolves, the request is created and the
    transport answers, [request] makes that one HTTP call and closes the
    body whatever follows; it succeeds exactly when the status is 200 and
    the body decodes, returning the decoded rows; a status other than 200
    gives the error "expected status code", a body that does not decode
    gives the decoder's error wrapped in "could not parse data", and the
    two never have the same text. *)
Theorem C7_request (E : Env) (m : ModuleT) (tr : list Event)
    (u : url_URL) (resp : Response) :
  let url := URL_String {| Loc := Loc u; RawQuery := Values_Encode E (qryVals m) |} in
  URL_Parse E (baseURL m) apiQueryPath = OK u ->
  http_NewRequest E "GET" url = None ->
  http_Do E tr "GET" url = OK resp ->
  snd (request E m tr) = tr ++ [EvHttpDo "GET" url; EvBodyClose]
  /\ (forall raw,
        fst (request E m tr) = Ret (OK raw)
        <-> StatusCode resp = 200 /\ json_Decode E (Body resp) = OK raw)
  /\ (StatusCode resp <> 200 ->
        fst (request E m tr) = Ret (Err (errors_New "expected status code")))
  /\ (forall e,
        StatusCode resp = 200 -> json_Decode E (Body resp) = Err e ->
        fst (request E m tr) = Ret (Err (fmt_Errorf_w "could not parse data: " e)))
  /\ (forall e,
        Error (errors_New "expected status code")
        <> Error (fmt_Errorf_w "could not parse data: " e)).
Proof.
  intros url Hu Hreq Hdo.
  unfold request. rewrite Hu. fold url. rewrite Hreq.
  unfold gbind, call, defer, ret. rewrite Hdo.
  destruct (Z.eqb_spec (StatusCode resp) 200) as [H200 | H200]; simpl;
    [destruct (json_Decode E (Body resp)) as [raw' | e'] eqn:Hdec; simpl |];
    rewrite <- app_assoc;
    (split; [reflexivity |]);
    (split; [intros raw; split;
               [intros H; split; congruence | intros [H1 H2]; congruence] |]);
    (split; [intros Hne; congruence |]);
    (split; [intros e He1 He2; congruence |]);
    apply status_error_is_not_decode_error.
Qed.

Lemma C7_request_witness :
  snd (request (lab_env (status 200) (OK [[100; 500]]%float) never)
               (lab_module Fine.qryValues) [])
  = [EvHttpDo "GET" "http://iotawatt.local/query?select=[time.utc.unix,input1]";
     EvBodyClose].
Proof.
  exact (proj1 (C7_request (lab_env (status 200) (OK [[100; 500]]%float) never)
                  (lab_module Fine.qryValues) []
                  {| Loc := "http://iotawatt.local/query"; RawQuery := "" |}
                  {| StatusCode := 200; Body := "[]" |}
                  eq_refl eq_refl eq_refl)).
Defined.

(** ** Rows that are too short *)

Lemma seqZ_split (n k : Z) :
  1 <= k <= n ->
  seqZ 1 n = seqZ 1 (k - 1) ++ k :: seqZ (k + 1) (n - k).
Proof.
  intros H.
  replace n with ((k - 1) + (n - (k - 1))) at 1 by lia.
  rewrite seqZ_app by lia. f_equal.
  replace (1 + (k - 1)) with k by lia.
  rewrite seqZ_cons by lia. f_equal. f_equal; lia.
Qed.

Lemma fine_channels_run (row : list float) (xs : list Z) :
  forall (c : float) (ser : list series),
    Forall (fun i => 1 <= i <= Z.of_nat (length ser) /\ i < Z.of_nat (length row)) xs ->
    exists c' ser',
      for_each xs (Fine.channel_step row) (c, ser) = Ret (c', ser')
      /\ length ser' = length ser.
Proof.
  induction xs as [| i xs IH]; intros c ser Hxs.
  - exists c, ser. split; reflexivity.
  - inversion Hxs as [| ? ? [Hi Hrow] Hrest]; subst.
    cbn [for_each]. unfold Fine.channel_step at 1.
    destruct (index_in row i) as (ri & -> & _); [lia |]. cbn [obind].
    destruct (index_in row 0) as (r0 & -> & _); [lia |]. cbn [obind].
    destruct (push_point_ok ser (i - 1) [r0; (ri / 1000)%float]) as (ser1 & -> & Hlen);
      [lia |].
    cbn [obind].
    destruct (IH (c + ri / 1000)%float ser1) as (c' & ser' & Hrun & Hlen').
    + rewrite Hlen. exact Hrest.
    + exists c', ser'. split; [exact Hrun | congruence].
Qed.

Lemma fine_row_long (n : Z) (row : list float) (c : float) (ser : list series) :
  Z.of_nat (length ser) = n -> 1 + n <= Z.of_nat (length row) ->
  exists c' ser',
    Fine.row_step n row (c, ser) = Ret (c', ser') /\ length ser' = length ser.
Proof.
  intros Hser Hrow. unfold Fine.row_step.
  destruct (fine_channels_run row (seqZ 1 n) 0%float ser) as (c' & ser' & -> & Hlen).
  - apply Forall_forall. intros i Hi. apply elem_of_seqZ in Hi. lia.
  - exists c', ser'. split; [reflexivity | exact Hlen].
Qed.

Lemma fine_row_short (n : Z) (row : list float) (c : float) (ser : list series) :
  Z.of_nat (length ser) = n -> 1 <= n -> Z.of_nat (length row) < 1 + n ->
  Fine.row_step n row (c, ser)
  = Panicked (IndexOutOfRange (Z.max 1 (Z.of_nat (length row)))
                              (Z.of_nat (length row))).
Proof.
  intros Hser Hn Hrow. unfold Fine.row_step.
  set (k := Z.max 1 (Z.of_nat (length row))).
  rewrite (seqZ_split n k) by lia. rewrite for_each_app.
  destruct (fine_channels_run row (seqZ 1 (k - 1)) 0%float ser) as (c' & ser' & -> & _).
  - apply Forall_forall. intros i Hi. apply elem_of_seqZ in Hi. lia.
  - cbn [obind for_each]. unfold Fine.channel_step at 1.
    rewrite (index_out row k) by lia. reflexivity.
Qed.

Lemma fine_rows_short (n : Z) (raw : list (list float)) :
  1 <= n ->
  forall (c : float) (ser : list series),
    Z.of_nat (length ser) = n ->
    Exists (short n) raw ->
    exists i len,
      for_each raw (Fine.row_step n) (c, ser) = Panicked (IndexOutOfRange i len)
      /\ len < 1 + n /\ len <= i.
Proof.
  intros Hn. induction raw as [| row raw IH]; intros c ser Hser Hex.
  - inversion Hex.
  - cbn [for_each].
    destruct (Z.lt_ge_cases (Z.of_nat (length row)) (1 + n)) as [Hshort | Hlong].
    + rewrite (fine_row_short n row c ser Hser Hn Hshort). cbn [obind].
      eexists _, _. split; [reflexivity |]. lia.
    + destruct (fine_row_long n row c ser Hser Hlong) as (c' & ser' & -> & Hlen).
      cbn [obind]. apply IH; [congruence |].
      inversion Hex as [? ? Hrow | ? ? Hrest]; subst; [| exact Hrest].
      unfold short in Hrow. lia.
Qed.

Lemma coarse_total_run (raw : list (list float)) (row : list float) (xs : list Z) :
  last raw = Some row ->
  Forall (fun i => 0 <= i < Z.of_nat (length row)) xs ->
  forall c, exists c',
    for_each xs (Coarse.total_step raw (Z.of_nat (length raw))) c = Ret c'.
Proof.
  intros Hlast. induction xs as [| i xs IH]; intros Hxs c.
  - exists c. reflexivity.
  - inversion Hxs as [| ? ? Hi Hrest]; subst.
    cbn [for_each]. unfold Coarse.total_step at 1.
    rewrite (index_last raw row Hlast). cbn [obind].
    destruct (index_in row i Hi) as (v & -> & _). cbn [obind].
    apply IH. exact Hrest.
Qed.

Lemma coarse_total_short (n : Z) (raw : list (list float)) (row : list float)
    (c : float) :
  last raw = Some row -> 1 <= n -> short n row ->
  for_each (seqZ 1 n) (Coarse.total_step raw (Z.of_nat (length raw))) c
  = Panicked (IndexOutOfRange (Z.max 1 (Z.of_nat (length row)))
                              (Z.of_nat (length row))).
Proof.
  intros Hlast Hn Hrow. unfold short in Hrow.
  set (k := Z.max 1 (Z.of_nat (length row))).
  rewrite (seqZ_split n k) by lia. rewrite for_each_app.
  destruct (coarse_total_run raw row (seqZ 1 (k - 1)) Hlast) with (c := c) as (c' & ->).
  - apply Forall_forall. intros i Hi. apply elem_of_seqZ in Hi. lia.
  - cbn [obind for_each]. unfold Coarse.total_step at 1.
    rewrite (index_last raw row Hlast). cbn [obind].
    rewrite (index_out row k) by lia. reflexivity.
Qed.

Lemma fine_aggregate_short (inputs : list string) (raw : list (list float)) :
  (1 <= length inputs)%nat ->
  Exists (short (Z.of_nat (length inputs))) raw ->
  exists i len,
    Fine.aggregate inputs raw = Panicked (IndexOutOfRange i len)
    /\ len < 1 + Z.of_nat (length inputs) /\ len <= i.
Proof.
  intros Hn Hex. unfold Fine.aggregate.
  apply fine_rows_short; [lia | | exact Hex].
  rewrite length_make_series. reflexivity.
Qed.

Lemma coarse_aggregate_short (oor : float -> Z) (inputs : list string)
    (raw : list (list float)) (row : list float) :
  (1 <= length inputs)%nat ->
  last raw = Some row -> short (Z.of_nat (length inputs)) row ->
  Coarse.aggregate oor inputs raw
  = Panicked (IndexOutOfRange (Z.max 1 (Z.of_nat (length row)))
                              (Z.of_nat (length row))).
Proof.
  intros Hn Hlast Hrow. unfold Coarse.aggregate.
  rewrite (coarse_total_short _ raw row 0%float Hlast) by (lia || exact Hrow).
  reflexivity.
Qed.

(** ** What a piece of code adds to the trace *)

Lemma adds_ret {A} (P : Event -> Prop) (a : A) : adds P (ret a).
Proof. intros tr. exists []. split; [symmetry; apply app_nil_r | constructor]. Qed.

Lemma adds_lift {A} (P : Event -> Prop) (o : Outcome A) : adds P (lift o).
Proof. intros tr. exists []. split; [symmetry; apply app_nil_r | constructor]. Qed.

Lemma adds_call {A} (P : Event -> Prop) (answer : list Event -> A) (e : Event) :
  P e -> adds P (call answer e).
Proof. intros He tr. exists [e]. split; [reflexivity | repeat constructor; exact He]. Qed.

Lemma adds_bind {A B} (P : Event -> Prop) (c : Go A) (k : A -> Go B) :
  adds P c -> (forall a, adds P (k a)) -> adds P (gbind c k).
Proof.
  intros Hc Hk tr. unfold gbind.
  destruct (Hc tr) as (evs & Htr & Hevs).
  destruct (c tr) as [[a | p] tr1]; simpl in Htr; subst tr1.
  - destruct (Hk a (tr ++ evs)) as (evs' & Htr' & Hevs').
    exists (evs ++ evs'). split.
    + rewrite Htr'. symmetry. apply app_assoc.
    + apply Forall_app. split; assumption.
  - exists evs. split; [reflexivity | exact Hevs].
Qed.

Lemma adds_defer {A} (P : Event -> Prop) (cleanup : Go unit) (rest : Go A) :
  adds P cleanup -> adds P rest -> adds P (defer cleanup rest).
Proof.
  intros Hc Hr tr. unfold defer.
  destruct (Hr tr) as (evs & Htr & Hevs).
  destruct (rest tr) as [o tr1]; simpl in Htr; subst tr1.
  destruct (Hc (tr ++ evs)) as (evs' & Htr' & Hevs').
  exists (evs ++ evs'). split.
  - simpl. rewrite Htr'. symmetry. apply app_assoc.
  - apply Forall_app. split; assumption.
Qed.

Lemma adds_on_error (P : Event -> Prop) (e : option error) (handle : error -> Go unit) :
  (forall err, adds P (handle err)) -> adds P (on_error e handle).
Proof. intros H. destruct e as [err |]; [apply H | apply adds_ret]. Qed.

Lemma adds_weaken {A} (P Q : Event -> Prop) (c : Go A) :
  (forall e, P e -> Q e) -> adds P c -> adds Q c.
Proof.
  intros HPQ Hc tr. destruct (Hc tr) as (evs & Htr & Hevs).
  exists evs. split; [exact Htr |]. eapply Forall_impl; eauto.
Qed.

(** Taking a program apart, one statement at a time. *)
Ltac adds_step :=
  first
    [ apply adds_ret
    | apply adds_lift
    | apply adds_call
    | apply adds_bind; [| intros ?]
    | apply adds_defer
    | apply adds_on_error; intros ?
    | match goal with
      | |- adds _ (match ?x with _ => _ end) => destruct x eqn:?
      end ].

Lemma request_adds (E : Env) (m : ModuleT) :
  adds (fetch_event (target E m)) (request E m).
Proof.
  unfold request, target.
  destruct (URL_Parse E (baseURL m) apiQueryPath) as [u | err]; [| apply adds_ret].
  repeat adds_step; solve [left; reflexivity | right; reflexivity].
Qed.

(** ** A pass that panics *)

Lemma fine_pass_panics (E : Env) (m : ModuleT) (tr tr' : list Event)
    (raw : list (list float)) (p : panic) :
  request E m tr = (Ret (OK raw), tr') ->
  Fine.aggregate (Inputs (cfg m)) raw = Panicked p ->
  Fine.pass E m tr = (Panicked p, tr').
Proof.
  intros Hreq Hagg. unfold Fine.pass, gbind, lift.
  rewrite Hreq, Hagg. reflexivity.
Qed.

Lemma coarse_pass_panics (E : Env) (m : ModuleT) (tr tr' : list Event)
    (raw : list (list float)) (p : panic) :
  request E m tr = (Ret (OK raw), tr') ->
  Coarse.aggregate (conv_oor E) (Inputs (cfg m)) raw = Panicked p ->
  Coarse.pass E m tr = (Panicked p, tr').
Proof.
  intros Hreq Hagg. unfold Coarse.pass, gbind, lift.
  rewrite Hreq, Hagg. reflexivity.
Qed.

Lemma crashed_is_final (E : Env) (m : ModuleT) (s s' : Sys) (p : panic) :
  worker s = Crashed p ->
  ~ Fine.worker_step E m s s' /\ ~ Coarse.worker_step E m s s'.
Proof.
  intros Hw. split; intros Hstep; inversion Hstep; congruence.
Qed.

(** C3, as claimed, fails: with one input, a row of one value crashes the
    worker of either version, and nothing is logged. *)
Lemma C3_short_row_crashes_worker :
  let E := lab_env (status 200) (OK [[100]]%float) never in
  let s := at_worker Fetching false false in
  let tr := [EvHttpDo "GET" "http://iotawatt.local/query?select=[time.utc.unix,input1]";
             EvBodyClose] in
  after_pass Selecting (Fine.pass E (lab_module Fine.qryValues)) s
  = crashed (IndexOutOfRange 1 1) s tr
  /\ after_pass Selecting (Coarse.pass E (lab_module Coarse.qryValues)) s
     = crashed (IndexOutOfRange 1 1) s tr.
Proof. cbv zeta. split; vm_compute; reflexivity. Qed.

(** C3, amended. With one input or more, after a successful fetch a row
    with fewer than 1+N values is not turned into an error of the tick:
    in the fine version any such row, and in the coarse version such a row
    in last position, makes the aggregation index the row past its end;
    the panic is not recovered, the worker stops in the crashed state with
    the trace the fetch left (the GET and the closing of the body, no log
    entry), and takes no further step. *)
Theorem C3_short_row_panics (E : Env) (m : ModuleT) (s : Sys)
    (raw : list (list float)) (tr' : list Event) :
  let n := Z.of_nat (length (Inputs (cfg m))) in
  (1 <= length (Inputs (cfg m)))%nat ->
  request E m (trace s) = (Ret (OK raw), tr') ->
  (Exists (short n) raw ->
     exists i len,
       len < 1 + n /\ len <= i
       /\ after_pass Selecting (Fine.pass E m) s
          = crashed (IndexOutOfRange i len) s tr')
  /\ (forall row,
        last raw = Some row -> short n row ->
        after_pass Selecting (Coarse.pass E m) s
        = crashed (IndexOutOfRange (Z.max 1 (Z.of_nat (length row)))
                                   (Z.of_nat (length row))) s tr')
  /\ (exists evs, tr' = trace s ++ evs /\ Forall (fetch_event (target E m)) evs)
  /\ (forall p s1 s2,
        worker s1 = Crashed p ->
        ~ Fine.worker_step E m s1 s2 /\ ~ Coarse.worker_step E m s1 s2).
Proof.
  intros n Hn Hreq. split; [| split; [| split]].
  - intros Hex.
    destruct (fine_aggregate_short (Inputs (cfg m)) raw Hn Hex)
      as (i & len & Hagg & Hlen & Hi).
    exists i, len. split; [exact Hlen |]. split; [exact Hi |].
    unfold after_pass. rewrite (fine_pass_panics E m _ _ raw _ Hreq Hagg).
    reflexivity.
  - intros row Hlast Hrow.
    unfold after_pass.
    rewrite (coarse_pass_panics E m _ _ raw _ Hreq
               (coarse_aggregate_short (conv_oor E) _ raw row Hn Hlast Hrow)).
    reflexivity.
  - destruct (request_adds E m (trace s)) as (evs & Htr & Hevs).
    rewrite Hreq in Htr. exists evs. split; [exact Htr | exact Hevs].
  - intros p s1 s2 Hw. exact (crashed_is_final E m s1 s2 p Hw).
Qed.

Lemma C3_short_row_panics_witness :
  exists i len,
    len < 1 + 1 /\ len <= i
    /\ after_pass Selecting
         (Fine.pass (lab_env (status 200) (OK [[100]]%float) never)
                    (lab_module Fine.qryValues))
         (at_worker Fetching false false)
       = crashed (IndexOutOfRange i len) (at_worker Fetching false false)
           [EvHttpDo "GET" "http://iotawatt.local/query?select=[time.utc.unix,input1]";
            EvBodyClose].
Proof.
  refine (proj1 (C3_short_row_panics
                   (lab_env (status 200) (OK [[100]]%float) never)
                   (lab_module Fine.qryValues)
                   (at_worker Fetching false false)
                   [[100]]%float _ _ eq_refl) _).
  - simpl. lia.
  - apply Exists_cons_hd. unfold short. simpl. lia.
Defined.

(** ** A pass that fails *)




Lemma renderCurrent_returns (E : Env) (m : ModuleT) (watt : float) (tr : list Event) :
  exists e tr', Coarse.renderCurrent E m watt tr = (Ret e, tr').
Proof.
  unfold Coarse.renderCurrent, Eval, gbind, call, ret.
  repeat match goal with
         | |- context [match ui_Eval E ?t ?a ?b with _ => _ end] =>
             destruct (ui_Eval E t a b)
         end;
    eexists _, _; reflexivity.
Qed.



(** ** The query values *)





Lemma after_pass_trace (w : Worker) (pass : Go Ctl) (s : Sys) :
  trace (after_pass w pass s) = snd (pass (trace s)).
Proof.
  unfold after_pass. destruct (pass (trace s)) as [[[|] | p] tr]; reflexivity.
Qed.

Lemma env_step_trace (s s' : Sys) : env_step s s' -> trace s' = trace s.
Proof.
  intros [s0 _ | s0 s1 Hclose]; [reflexivity |].
  unfold Close in Hclose. destruct (close_chan (done_closed s0)); [| discriminate].
  injection Hclose as <-. reflexivity.
Qed.















(** ** Rendering *)

Ltac answer_scripts E :=
  repeat match goal with
         | |- context [ui_Eval E ?t ?a ?b] =>
             let H := fresh "Hui" in destruct (ui_Eval E t a b) eqn:H
         end.

Ltac use_answers :=
  repeat match goal with
         | H : ui_Eval _ _ _ _ = _ |- _ => rewrite H; clear H
         end.

Ltac all_logged :=
  repeat match goal with
         | |- _ /\ _ => split
         | |- True => exact I
         | |- exists _, _ => eexists; split; reflexivity
         end.

Lemma fine_render_stages (E : Env) (m : ModuleT) (current : float) (b : string)
    (tr : list Event) :
  exists evs,
    Fine.render E m current b tr = (Ret tt, tr ++ evs)
    /\ stages evs = [CurrentValue; SeriesAssign; ChartRefresh]
    /\ failures_logged E m tr evs.
Proof.
  unfold Fine.render, Eval, log_Error, gbind, call, on_error, ret.
  answer_scripts E; cbn [fst snd];
    (eexists; split;
     [ rewrite <- ?app_assoc; cbn [app]; reflexivity
     | split; [reflexivity |] ]);
    cbn [failures_logged]; use_answers; all_logged.
Qed.

Lemma coarse_render_stages (E : Env) (m : ModuleT) (current : float)
    (ser : list series) (b : string) (tr : list Event) :
  json_Marshal E ser = OK b ->
  exists evs k,
    Coarse.render E m current ser tr = (Ret Continue, tr ++ evs)
    /\ (1 <= k <= 3)%nat
    /\ stages evs = replicate k CurrentValue ++ [SeriesAssign; ChartRefresh]
    /\ failures_logged E m tr evs.
Proof.
  intros Henc.
  unfold Coarse.render, Coarse.renderCurrent, Eval, log_Error, gbind, call,
    on_error, ret.
  cbn [String.append]. rewrite Henc.
  answer_scripts E; cbn [fst snd];
    (eexists; eexists; split;
     [ rewrite <- ?app_assoc; cbn [app]; reflexivity
     | split;
       [ | split;
           [ first [ instantiate (1 := 1%nat); reflexivity
                   | instantiate (1 := 2%nat); reflexivity
                   | instantiate (1 := 3%nat); reflexivity ] |] ] ]);
    try lia;
    cbn [failures_logged]; use_answers; all_logged.
Qed.





Example coarse_render_all_refused :
  snd (Coarse.pass (lab_env (status 200) (OK [[100; 500]]%float) refuse_all)
                   (lab_module Coarse.qryValues) [])
  = [EvHttpDo "GET" "http://iotawatt.local/query?select=[time.utc.unix,input1]";
     EvBodyClose;
     EvEval "document.querySelector('#%s .current').innerHTML = '%s<sel>.%s %s</sel>'"
       ["power"; "0"; "0"; "kW"];
     EvLogError "Could not update current"
       ["module"; "iotawatt"; "id"; "power"; "error"; "no display"];
     EvEval "iotaWattSeries = %s" ["[]"];
     EvLogError "Could not update series"
       ["module"; "iotawatt"; "id"; "power"; "error"; "no display"];
     EvEval "iotaWattChart.update({series: iotaWattSeries},true,true)" [];
     EvLogError "Could not update chart"
       ["module"; "iotawatt"; "id"; "power"; "error"; "no display"]].
Proof. vm_compute. reflexivity. Qed.


(** * Further properties *)

(** ** Aggregation with any number of inputs *)

Lemma push_point_at (ser : list series) (k : nat) (s : series) (p : list float) :
  ser !! k = Some s ->
  push_point ser (Z.of_nat k) p = Ret (<[k := append_point s p]> ser).
Proof.
  intros Hk. unfold push_point. rewrite (index_ok ser k s Hk). cbn [obind].
  rewrite Nat2Z.id. reflexivity.
Qed.

Lemma seqZ_snoc (k : nat) :
  seqZ 1 (Z.of_nat (S k)) = seqZ 1 (Z.of_nat k) ++ [Z.of_nat (S k)].
Proof.
  replace (Z.of_nat (S k)) with (Z.of_nat k + 1) at 1 by lia.
  rewrite seqZ_app by lia. f_equal.
  replace (1 + Z.of_nat k) with (Z.of_nat (S k)) by lia. reflexivity.
Qed.

Lemma long_lookup (n k : nat) (row : list float) :
  long n row -> (k <= n)%nat -> row !! k = Some (nth k row 0%float).
Proof.
  intros Hrow Hk. unfold long in Hrow.
  destruct (lookup_lt_is_Some_2 row k) as [v Hv]; [lia |].
  rewrite nth_lookup, Hv. reflexivity.
Qed.

Lemma fine_channels_prefix (row : list float) (ser0 : list series) (c0 : float)
    (n : nat) :
  length ser0 = n -> long n row ->
  forall k, (k <= n)%nat ->
    exists ser,
      for_each (seqZ 1 (Z.of_nat k)) (Fine.channel_step row) (c0, ser0)
      = Ret (fold_left (fun acc v => acc + v / 1000)%float (take k (tail row)) c0, ser)
      /\ length ser = n
      /\ (forall j, (j < k)%nat ->
            ser !! j = (fun s => append_point s (fine_point_at j row)) <$> ser0 !! j)
      /\ (forall j, (k <= j)%nat -> ser !! j = ser0 !! j).
Proof.
  intros Hser Hrow. induction k as [| k IH]; intros Hk.
  - exists ser0. repeat split; try assumption. intros j Hj. lia.
  - destruct IH as (ser & Hrun & Hlen & Hdone & Htodo); [lia |].
    rewrite seqZ_snoc, for_each_app, Hrun. cbn [obind for_each].
    unfold Fine.channel_step.
    rewrite (index_ok row (S k) _ (long_lookup n (S k) row Hrow Hk)). cbn [obind].
    change 0 with (Z.of_nat 0).
    rewrite (index_ok row 0 _ (long_lookup n 0 row Hrow (Nat.le_0_l n))). cbn [obind].
    destruct (lookup_lt_is_Some_2 ser0 k) as [s0 Hs0]; [lia |].
    replace (Z.of_nat (S k) - 1) with (Z.of_nat k) by lia.
    rewrite (push_point_at ser k s0); [| rewrite Htodo by lia; exact Hs0].
    cbn [obind]. eexists. split; [| split; [| split]].
    + f_equal. f_equal.
      rewrite (take_S_r (tail row) k (nth (S k) row 0%float)).
      * rewrite fold_left_app. reflexivity.
      * rewrite lookup_tail. apply (long_lookup n (S k) row Hrow Hk).
    + rewrite length_insert. exact Hlen.
    + intros j Hj. destruct (decide (j = k)) as [-> | Hne].
      * rewrite list_lookup_insert_eq by lia. rewrite Hs0. reflexivity.
      * rewrite list_lookup_insert_ne by congruence. apply Hdone. lia.
    + intros j Hj. rewrite list_lookup_insert_ne by lia. apply Htodo. lia.
Qed.

Lemma fine_rows_general (n : nat) (raw : list (list float)) :
  Forall (long n) raw ->
  forall (c : float) (ser0 : list series),
    length ser0 = n ->
    exists ser,
      for_each raw (Fine.row_step (Z.of_nat n)) (c, ser0)
      = Ret (match last raw with
             | Some row => fine_total n row
             | None => c
             end, ser)
      /\ length ser = n
      /\ forall j, (j < n)%nat ->
           ser !! j
           = (fun s => {| Data := Data s ++ map (fine_point_at j) raw |}) <$> ser0 !! j.
Proof.
  induction 1 as [| row raw Hrow Hraw IH]; intros c ser0 Hser.
  - exists ser0. split; [reflexivity |]. split; [exact Hser |].
    intros j Hj. destruct (lookup_lt_is_Some_2 ser0 j) as [[d] ->]; [lia |].
    simpl. rewrite app_nil_r. reflexivity.
  - destruct (fine_channels_prefix row ser0 0%float n Hser Hrow n (le_n n))
      as (ser1 & Hrun & Hlen1 & Hdone & _).
    destruct (IH (fine_total n row) ser1 Hlen1) as (ser & Hrest & Hlen & Hall).
    exists ser. split; [| split; [exact Hlen |]].
    + cbn [for_each]. unfold Fine.row_step at 1. rewrite Hrun. cbn [obind].
      fold (fine_total n row). rewrite Hrest. f_equal. f_equal.
      destruct raw as [| row' raw']; [reflexivity |].
      rewrite last_cons_cons. destruct (last (row' :: raw')) eqn:Hl; [reflexivity |].
      apply last_None in Hl. discriminate.
    + intros j Hj. rewrite (Hall j Hj), (Hdone j Hj).
      destruct (ser0 !! j) as [[d] |]; [| reflexivity].
      simpl. rewrite <- app_assoc. reflexivity.
Qed.

(** X1. Fine version, any number N of inputs: when every row has a
    timestamp and N values, the aggregation succeeds with exactly N
    series; series j holds, for every row in order, the pair (timestamp,
    value of channel j+1 divided by 1000), and the total is the sum of the
    converted values of the last row (0 for no rows). *)
Theorem X1_fine_aggregate (inputs : list string) (raw : list (list float)) :
  Forall (long (length inputs)) raw ->
  exists ser,
    Fine.aggregate inputs raw
    = Ret (match last raw with
           | Some row => fine_total (length inputs) row
           | None => 0%float
           end, ser)
    /\ length ser = length inputs
    /\ forall j, (j < length inputs)%nat ->
         ser !! j = Some {| Data := map (fine_point_at j) raw |}.
Proof.
  intros Hraw.
  destruct (fine_rows_general (length inputs) raw Hraw 0%float
              (make_series (length inputs)) (length_make_series _))
    as (ser & Hrun & Hlen & Hall).
  exists ser. split; [exact Hrun |]. split; [exact Hlen |].
  intros j Hj. rewrite (Hall j Hj). unfold make_series.
  rewrite lookup_replicate_2 by exact Hj. reflexivity.
Qed.

Lemma X1_fine_aggregate_witness :
  exists ser,
    Fine.aggregate ["stove"; "oven"] [[100; 500; 1500]; [120; 700; 0]]%float
    = Ret (fine_total 2 [120; 700; 0]%float, ser)
    /\ length ser = 2%nat
    /\ forall j, (j < 2)%nat ->
         ser !! j
         = Some {| Data := map (fine_point_at j) [[100; 500; 1500]; [120; 700; 0]]%float |}.
Proof.
  refine (X1_fine_aggregate ["stove"; "oven"] [[100; 500; 1500]; [120; 700; 0]]%float _).
  repeat constructor.
Defined.

Lemma coarse_channels_prefix (row : list float) (ser0 : list series) (n : nat) :
  length ser0 = n -> long n row ->
  forall k, (k <= n)%nat ->
    exists ser,
      for_each (seqZ 1 (Z.of_nat k)) (Coarse.channel_step row) ser0 = Ret ser
      /\ length ser = n
      /\ (forall j, (j < k)%nat ->
            ser !! j = (fun s => append_point s (coarse_point_at j row)) <$> ser0 !! j)
      /\ (forall j, (k <= j)%nat -> ser !! j = ser0 !! j).
Proof.
  intros Hser Hrow. induction k as [| k IH]; intros Hk.
  - exists ser0. repeat split; try assumption. intros j Hj. lia.
  - destruct IH as (ser & Hrun & Hlen & Hdone & Htodo); [lia |].
    rewrite seqZ_snoc, for_each_app, Hrun. cbn [obind for_each].
    unfold Coarse.channel_step.
    change 0 with (Z.of_nat 0).
    rewrite (index_ok row 0 _ (long_lookup n 0 row Hrow (Nat.le_0_l n))). cbn [obind].
    rewrite (index_ok row (S k) _ (long_lookup n (S k) row Hrow Hk)). cbn [obind].
    destruct (lookup_lt_is_Some_2 ser0 k) as [s0 Hs0]; [lia |].
    replace (Z.of_nat (S k) - 1) with (Z.of_nat k) by lia.
    rewrite (push_point_at ser k s0); [| rewrite Htodo by lia; exact Hs0].
    eexists. split; [reflexivity |]. split; [| split].
    + rewrite length_insert. exact Hlen.
    + intros j Hj. destruct (decide (j = k)) as [-> | Hne].
      * rewrite list_lookup_insert_eq by lia. rewrite Hs0. reflexivity.
      * rewrite list_lookup_insert_ne by congruence. apply Hdone. lia.
    + intros j Hj. rewrite list_lookup_insert_ne by lia. apply Htodo. lia.
Qed.

Lemma coarse_total_prefix (raw : list (list float)) (row : list float) (n : nat)
    (c0 : float) :
  last raw = Some row -> long n row ->
  forall k, (k <= n)%nat ->
    for_each (seqZ 1 (Z.of_nat k)) (Coarse.total_step raw (Z.of_nat (length raw))) c0
    = Ret (fold_left (fun acc v => acc + v)%float (take k (tail row)) c0).
Proof.
  intros Hlast Hrow. induction k as [| k IH]; intros Hk; [reflexivity |].
  rewrite seqZ_snoc, for_each_app, IH by lia. cbn [obind for_each].
  unfold Coarse.total_step. rewrite (index_last raw row Hlast). cbn [obind].
  rewrite (index_ok row (S k) _ (long_lookup n (S k) row Hrow Hk)). cbn [obind].
  rewrite (take_S_r (tail row) k (nth (S k) row 0%float)).
  - rewrite fold_left_app. reflexivity.
  - rewrite lookup_tail. apply (long_lookup n (S k) row Hrow Hk).
Qed.

Lemma coarse_rows_general (oor : float -> Z) (n : nat) (raw : list (list float)) :
  Forall (long n) raw ->
  forall ser0 : list series,
    length ser0 = n ->
    exists ser,
      for_each raw (Coarse.row_step oor (Z.of_nat n)) ser0 = Ret ser
      /\ length ser = n
      /\ forall j, (j < n)%nat ->
           ser !! j
           = (fun s => {| Data := Data s
                                  ++ map (coarse_point_at j) (List.filter (kept oor) raw) |})
               <$> ser0 !! j.
Proof.
  induction 1 as [| row raw Hrow Hraw IH]; intros ser0 Hser.
  - exists ser0. split; [reflexivity |]. split; [exact Hser |].
    intros j Hj. destruct (lookup_lt_is_Some_2 ser0 j) as [[d] ->]; [lia |].
    simpl. rewrite app_nil_r. reflexivity.
  - cbn [for_each List.filter]. unfold Coarse.row_step at 1.
    change 0 with (Z.of_nat 0).
    rewrite (index_ok row 0 _ (long_lookup n 0 row Hrow (Nat.le_0_l n))). cbn [obind].
    change (Coarse.skipped oor (nth 0 row 0%float)) with (negb (kept oor row)).
    destruct (kept oor row); cbn [negb].
    + destruct (coarse_channels_prefix row ser0 n Hser Hrow n (le_n n))
        as (ser1 & -> & Hlen1 & Hdone & _).
      cbn [obind].
      destruct (IH ser1 Hlen1) as (ser & Hrest & Hlen & Hall).
      exists ser. split; [exact Hrest |]. split; [exact Hlen |].
      intros j Hj. rewrite (Hall j Hj), (Hdone j Hj).
      destruct (ser0 !! j) as [[d] |]; [| reflexivity].
      simpl. rewrite <- app_assoc. reflexivity.
    + cbn [obind]. apply IH. exact Hser.
Qed.

(** X2. Coarse version, any number N of inputs: when every row has a
    timestamp and N values and there is a last row, the aggregation
    succeeds with exactly N series; series j holds, for the rows whose
    timestamp is a multiple of 20 and in their order, the pair (timestamp,
    value of channel j+1), and the total is the sum of the N values of the
    last row, kept by the filter or not. *)
Theorem X2_coarse_aggregate (oor : float -> Z) (inputs : list string)
    (raw : list (list float)) (row : list float) :
  Forall (long (length inputs)) raw ->
  last raw = Some row ->
  exists ser,
    Coarse.aggregate oor inputs raw = Ret (coarse_total (length inputs) row, ser)
    /\ length ser = length inputs
    /\ forall j, (j < length inputs)%nat ->
         ser !! j
         = Some {| Data := map (coarse_point_at j) (List.filter (kept oor) raw) |}.
Proof.
  intros Hraw Hlast.
  assert (long (length inputs) row) as Hrow.
  { rewrite Forall_forall in Hraw. apply Hraw, last_Some_elem_of, Hlast. }
  destruct (coarse_rows_general oor (length inputs) raw Hraw
              (make_series (length inputs)) (length_make_series _))
    as (ser & Hrun & Hlen & Hall).
  exists ser. split; [| split; [exact Hlen |]].
  - unfold Coarse.aggregate.
    rewrite (coarse_total_prefix raw row (length inputs) 0%float Hlast Hrow
               (length inputs) (le_n _)).
    cbn [obind]. rewrite Hrun. reflexivity.
  - intros j Hj. rewrite (Hall j Hj). unfold make_series.
    rewrite lookup_replicate_2 by exact Hj. reflexivity.
Qed.

Lemma X2_coarse_aggregate_witness :
  exists ser,
    Coarse.aggregate amd64_oor ["stove"; "oven"]
      [[100; 500; 1500]; [110; 600; 1400]; [130; 700; 0]]%float
    = Ret (coarse_total 2 [130; 700; 0]%float, ser)
    /\ length ser = 2%nat
    /\ forall j, (j < 2)%nat ->
         ser !! j
         = Some {| Data := map (coarse_point_at j)
                             (List.filter (kept amd64_oor)
                                [[100; 500; 1500]; [110; 600; 1400]; [130; 700; 0]]%float) |}.
Proof.
  refine (X2_coarse_aggregate amd64_oor ["stove"; "oven"]
            [[100; 500; 1500]; [110; 600; 1400]; [130; 700; 0]]%float
            [130; 700; 0]%float _ eq_refl).
  repeat constructor.
Defined.


(** ** Construction *)

Ltac new_paths E :=
  repeat match goal with
         | |- context [match url_Parse E ?a with _ => _ end] =>
             destruct (url_Parse E a) eqn:?
         | |- context [match os_ReadFile E ?t ?a with _ => _ end] =>
             destruct (os_ReadFile E t a) eqn:?
         | |- context [match ui_LoadCSS E ?t ?a with _ => _ end] =>
             destruct (ui_LoadCSS E t a) eqn:?
         | |- context [match ui_LoadHTML E ?t ?a with _ => _ end] =>
             destruct (ui_LoadHTML E t a) eqn:?
         | |- context [match ui_Eval E ?t ?a ?b with _ => _ end] =>
             destruct (ui_Eval E t a b) eqn:?
         end.

Lemma new_stops_at_first_failure (E : Env) (q : gmap string (list string))
    (c : Config) (info : Info) (tr : list Event)
    (new : Go (res ModuleT)) :
  new = (match url_Parse E (URL c) with
         | Err err => ret (Err (fmt_Errorf_w "could not parse url: " err))
         | OK u =>
             let m := {| name := Name info; path := Path info; cfg := c;
                         baseURL := u; qryVals := q |} in
             e <- loadCSS E m "assets/style.css" ;;
             match e with
             | Some err => ret (Err err)
             | None =>
                 e <- renderHTML E m "assets/index.html" ;;
                 match e with
                 | Some err => ret (Err err)
                 | None => ret (OK m)
                 end
             end
         end) ->
  exists r evs,
    new tr = (Ret r, tr ++ evs)
    /\ map kind_of evs `prefix_of` new_steps
    /\ (forall m, r = OK m ->
          map kind_of evs = new_steps
          /\ name m = Name info /\ path m = Path info /\ cfg m = c /\ qryVals m = q
          /\ url_Parse E (URL c) = OK (baseURL m))
    /\ (forall err, url_Parse E (URL c) = Err err ->
          r = Err (fmt_Errorf_w "could not parse url: " err) /\ evs = []).
Proof.
  intros ->. unfold loadCSS, renderHTML, Eval, gbind, call, ret.
  new_paths E; cbn [fst snd]; rewrite <- ?app_assoc; cbn [app];
    first [ eexists; exists []; split; [rewrite app_nil_r; reflexivity |]
          | eexists; eexists; split; [reflexivity |] ];
    (split; [ cbn [map kind_of]; unfold new_steps;
              first [ exists []; reflexivity | eexists; reflexivity ] |]);
    (split; [ intros m Hm; try discriminate; injection Hm as <-;
              repeat split; reflexivity
            | intros err' Herr; try discriminate; injection Herr as <-;
              split; reflexivity ]).
Qed.

Lemma stops_at_first_refusal_holds (E : Env) (tr evs : list Event) :
  stops_at_first_refusal E tr evs.
Proof.
  unfold stops_at_first_refusal. revert tr.
  induction evs as [| e rest IH]; intros tr; cbn [first_refused attempted].
  - split; [reflexivity | exact I].
  - destruct (refusal E tr e) as [err |] eqn:Hr.
    + split; [reflexivity |]. split; [cbn; lia |]. split; [exact I |].
      exists e. split; [reflexivity |]. cbn [take]. rewrite app_nil_r. exact Hr.
    + specialize (IH (tr ++ [e])).
      destruct (first_refused E (tr ++ [e]) rest) as [[k err] |].
      * destruct IH as (Hatt & Hk & Hacc & e' & Hlook & Href).
        split; [cbn [take]; rewrite Hatt; reflexivity |].
        split; [cbn [length]; lia |].
        split; [cbn [take all_accepted]; split; assumption |].
        exists e'. split; [exact Hlook |].
        cbn [take]. rewrite <- app_assoc in Href. exact Href.
      * destruct IH as [Hatt Hacc].
        split; [rewrite Hatt; reflexivity | split; assumption].
Qed.

Lemma new_gives_outcome (E : Env) (q : gmap string (list string))
    (c : Config) (info : Info) (tr : list Event)
    (new : Go (res ModuleT)) :
  new = (match url_Parse E (URL c) with
         | Err err => ret (Err (fmt_Errorf_w "could not parse url: " err))
         | OK u =>
             let m := {| name := Name info; path := Path info; cfg := c;
                         baseURL := u; qryVals := q |} in
             e <- loadCSS E m "assets/style.css" ;;
             match e with
             | Some err => ret (Err err)
             | None =>
                 e <- renderHTML E m "assets/index.html" ;;
                 match e with
                 | Some err => ret (Err err)
                 | None => ret (OK m)
                 end
             end
         end) ->
  new tr = new_outcome E c info tr q.
Proof.
  intros ->. unfold new_outcome, new_calls, file_text.
  destruct (url_Parse E (URL c)) as [u | err0]; [| reflexivity].
  unfold loadCSS, renderHTML, Eval, gbind, call, ret.
  cbv zeta. cbn [name path attempted first_refused refusal].
  destruct (os_ReadFile E tr _) as [css | e1]; [| reflexivity].
  destruct (ui_LoadCSS E _ css) as [e2 |];
    [cbn [new_wrap]; rewrite <- ?app_assoc; reflexivity |].
  destruct (os_ReadFile E _ _) as [html | e3];
    [| cbn [new_wrap]; rewrite <- ?app_assoc; reflexivity].
  destruct (ui_LoadHTML E _ html) as [e4 |];
    [cbn [new_wrap]; rewrite <- ?app_assoc; reflexivity |].
  destruct (ui_Eval E _ _ _) as [e5 |];
    cbn [new_wrap]; rewrite <- ?app_assoc; reflexivity.
Qed.

(** X3. [New] of either version never panics.  When the URL does not
    parse it has no effect at all and returns the wrapped error.
    Otherwise it takes five steps in this order: it reads
    assets/style.css of the module's directory, loads the text it read as
    the style sheet, reads assets/index.html, loads the text it read as
    the page, and invokes the module's scripts by the module's name.  It
    stops at the first step that is refused: the steps before it were
    accepted, nothing is done after it, and its error is returned, wrapped
    for the two reads and for the loading of the page.  A module is
    returned only when all five were accepted, and it carries the name and
    path of [info], the configuration, the parsed base URL and the query
    values of its version. *)
Theorem X3_new_steps (E : Env) (c : Config) (info : Info) (tr : list Event) :
  Fine.New E c info tr = new_outcome E c info tr (Fine.qryValues c)
  /\ Coarse.New E c info tr = new_outcome E c info tr (Coarse.qryValues c)
  /\ stops_at_first_refusal E tr (new_calls E info tr)
  /\ map kind_of (new_calls E info tr) = new_steps
  /\ (exists r evs,
        Fine.New E c info tr = (Ret r, tr ++ evs)
        /\ map kind_of evs `prefix_of` new_steps
        /\ (forall m, r = OK m ->
              map kind_of evs = new_steps
              /\ name m = Name info /\ path m = Path info /\ cfg m = c
              /\ qryVals m = Fine.qryValues c
              /\ url_Parse E (URL c) = OK (baseURL m))
        /\ (forall err, url_Parse E (URL c) = Err err ->
              r = Err (fmt_Errorf_w "could not parse url: " err) /\ evs = []))
  /\ (exists r evs,
        Coarse.New E c info tr = (Ret r, tr ++ evs)
        /\ map kind_of evs `prefix_of` new_steps
        /\ (forall m, r = OK m ->
              map kind_of evs = new_steps
              /\ name m = Name info /\ path m = Path info /\ cfg m = c
              /\ qryVals m = Coarse.qryValues c
              /\ url_Parse E (URL c) = OK (baseURL m))
        /\ (forall err, url_Parse E (URL c) = Err err ->
              r = Err (fmt_Errorf_w "could not parse url: " err) /\ evs = [])).
Proof.
  split; [| split; [| split; [| split; [| split]]]].
  - exact (new_gives_outcome E (Fine.qryValues c) c info tr
             (Fine.New E c info) eq_refl).
  - exact (new_gives_outcome E (Coarse.qryValues c) c info tr
             (Coarse.New E c info) eq_refl).
  - apply stops_at_first_refusal_holds.
  - reflexivity.
  - exact (new_stops_at_first_failure E (Fine.qryValues c) c info tr
             (Fine.New E c info) eq_refl).
  - exact (new_stops_at_first_failure E (Coarse.qryValues c) c info tr
             (Coarse.New E c info) eq_refl).
Qed.

(** A [New] whose page the UI refuses to load: the style sheet was read
    and loaded, the page read, and nothing follows the refused step. *)
Example new_refused_page :
  let E := {| conv_oor := amd64_oor;
              url_Parse := fun s => OK {| Loc := s; RawQuery := "" |};
              URL_Parse := fun u ref => OK {| Loc := Loc u +:+ ref; RawQuery := "" |};
              Values_Encode := fun _ => "";
              http_NewRequest := fun _ _ => None;
              json_Decode := fun _ => OK [];
              json_Marshal := fun _ => OK "[]";
              strconv_FormatFloat := fun _ => "0.0";
              strconv_Itoa := fun _ => "0";
              filepath_Join_Clean := fun a b => a +:+ "/" +:+ b;
              os_ReadFile := fun _ p =>
                if String.eqb p "/modules/iotawatt/assets/style.css"
                then OK "s{}" else OK "<p>";
              http_Do := fun _ _ _ => status 200;
              ui_LoadCSS := fun _ _ => None;
              ui_LoadHTML := fun _ _ => Some (foreign "no page");
              ui_Eval := fun _ _ _ => None |} in
  Fine.New E lab_config lab_info []
  = (Ret (Err (fmt_Errorf_w "iotawatt: could not load html: " (foreign "no page"))),
     [EvReadFile "/modules/iotawatt/assets/style.css"; EvLoadCSS "s{}";
      EvReadFile "/modules/iotawatt/assets/index.html"; EvLoadHTML "<p>"]).
Proof. vm_compute. reflexivity. Qed.

Example new_full_trace :
  snd (Fine.New (lab_env (status 200) (OK []) never) lab_config lab_info [])
  = [EvReadFile "/modules/iotawatt/assets/style.css"; EvLoadCSS "";
     EvReadFile "/modules/iotawatt/assets/index.html"; EvLoadHTML "";
     EvEval "invokeModuleScripts(%q)" ["power"]].
Proof. vm_compute. reflexivity. Qed.

(** ** The failures of a request before there is a response *)

(** X6. [request] never panics and makes at most one HTTP call.  What it
    adds to the trace is nothing (the URL did not resolve or the request
    could not be created), the GET alone (the transport failed: there is
    no body to close), or the GET followed by the closing of the body (the
    transport answered).  Rows come back only in the last case, and a
    transport failure is reported under the text "could not parse url",
    the text of a URL failure. *)
Theorem X6_request_effects (E : Env) (m : ModuleT) (tr : list Event) :
  exists r evs,
    request E m tr = (Ret r, tr ++ evs)
    /\ (evs = [] \/ evs = [EvHttpDo "GET" (target E m)]
        \/ evs = [EvHttpDo "GET" (target E m); EvBodyClose])
    /\ (In EvBodyClose evs <-> exists resp, http_Do E tr "GET" (target E m) = OK resp
                                            /\ In (EvHttpDo "GET" (target E m)) evs)
    /\ (forall raw, r = OK raw -> evs = [EvHttpDo "GET" (target E m); EvBodyClose])
    /\ (forall err,
          evs = [EvHttpDo "GET" (target E m)] ->
          http_Do E tr "GET" (target E m) = Err err ->
          r = Err (fmt_Errorf_w "could not parse url: " err)).
Proof.
  unfold request, target, gbind, call, defer, ret.
  destruct (URL_Parse E (baseURL m) apiQueryPath) as [u | e0].
  - destruct (http_NewRequest E "GET" _) as [e1 |].
    + exists (Err (fmt_Errorf_w "could create request: " e1)), [].
      rewrite app_nil_r. split; [reflexivity |]. split; [left; reflexivity |].
      split; [| split; [intros raw H | intros err H]; discriminate].
      split; [intros [] | intros (resp & _ & [])].
    + destruct (http_Do E tr "GET" _) as [resp | e2] eqn:Hdo.
      * destruct (negb (StatusCode resp =? 200));
          [| destruct (json_Decode E (Body resp))];
          cbn [fst snd]; rewrite <- app_assoc; cbn [app];
          (eexists _, [_; _]; split; [reflexivity |]);
          (split; [right; right; reflexivity |]);
          (split; [| split; [intros raw H; reflexivity | intros err H; discriminate]]);
          (split; [intros _; exists resp; split; [reflexivity | left; reflexivity]
                  | intros _; right; left; reflexivity]).
      * eexists _, [_]. split; [reflexivity |].
        split; [right; left; reflexivity |].
        split; [| split; [intros raw H; discriminate
                         | intros err _ H; injection H as <-; reflexivity]].
        split; [intros [H | []]; discriminate
               | intros (resp & H & _); discriminate].
  - exists (Err (fmt_Errorf_w "could not parse url: " e0)), [].
    rewrite app_nil_r. split; [reflexivity |]. split; [left; reflexivity |].
    split; [| split; [intros raw H | intros err H]; discriminate].
    split; [intros [] | intros (resp & _ & [])].
Qed.

Example transport_failure_text :
  request (lab_env (Err (foreign "connection refused")) (OK []) never)
          (lab_module Fine.qryValues) []
  = (Ret (Err (fmt_Errorf_w "could not parse url: " (foreign "connection refused"))),
     [EvHttpDo "GET" "http://iotawatt.local/query?select=[time.utc.unix,input1]"]).
Proof. vm_compute. reflexivity. Qed.

(** ** The current value of the coarse version *)

(** X7. [renderCurrent] never panics.  It shows kilowatts, the value
    divided by 1000, exactly when the value is above 100 (100 itself, and
    a NaN, stay in watts): the text it writes is the integer part and the
    first decimal of the number shown, with the unit; it then removes the
    class of the other unit and adds the class of the unit shown.  It
    sends its three scripts in the order innerHTML, classList.remove,
    classList.add and stops at the first one the UI refuses: the scripts
    before it were accepted, nothing is sent after it, and its error is
    returned; when none is refused, all three are sent and no error is
    returned. *)
Theorem X7_renderCurrent (E : Env) (m : ModuleT) (watt : float) (tr : list Event) :
  let unit := if (100 <? watt)%float then "kW" else "W" in
  let other := if (100 <? watt)%float then "W" else "kW" in
  let scripts :=
    current_scripts m (strconv_Itoa E (shown_int E watt))
      (strconv_Itoa E (shown_tenth E watt)) unit other in
  Coarse.renderCurrent E m watt tr
  = (Ret (snd <$> first_refused E tr scripts), tr ++ attempted E tr scripts)
  /\ stops_at_first_refusal E tr scripts
  /\ exists k e,
       (1 <= k <= 3)%nat
       /\ Coarse.renderCurrent E m watt tr = (Ret e, tr ++ take k scripts)
       /\ ((k < 3)%nat -> is_Some e)
       /\ forall template args,
            last (take k scripts) = Some (EvEval template args) ->
            e = ui_Eval E (tr ++ take (k - 1) scripts) template args.
Proof.
  cbv zeta. split; [| split; [apply stops_at_first_refusal_holds |]].
  - unfold Coarse.renderCurrent, current_scripts, shown_tenth, shown_int, shown,
      Eval, gbind, call, ret.
    destruct (100 <? watt)%float; cbv [String.append];
      cbn [attempted first_refused refusal];
      answer_scripts E; cbn [fst snd fmap option_fmap option_map];
      rewrite <- ?app_assoc; reflexivity.
  - unfold Coarse.renderCurrent, current_scripts, shown_tenth, shown_int, shown,
      Eval, gbind, call, ret.
    destruct (100 <? watt)%float; cbv zeta; cbn [String.append];
      answer_scripts E; cbn [fst snd]; rewrite <- ?app_assoc; cbn [app];
      repeat match goal with
             | H : context [(_ ++ _) ++ _] |- _ =>
                 rewrite <- app_assoc in H; cbn [app] in H
             end;
      first
        [ exists 1%nat, (Some e); split; [lia |]; split; [reflexivity |];
          split; [intros _; eexists; reflexivity |];
          intros t a H; cbn in H; injection H as <- <-;
          cbn [take Nat.sub]; rewrite app_nil_r; symmetry; assumption
        | exists 2%nat, (Some e); split; [lia |]; split; [reflexivity |];
          split; [intros _; eexists; reflexivity |];
          intros t a H; cbn in H; injection H as <- <-;
          cbn [take Nat.sub]; symmetry; assumption
        | exists 3%nat; eexists; split; [lia |]; split; [reflexivity |];
          split; [intros H; lia |];
          intros t a H; cbn in H; injection H as <- <-;
          cbn [take Nat.sub]; rewrite <- ?app_assoc; cbn [app];
          symmetry; assumption ].
Qed.

Example current_value_units :
  let E := lab_env (status 200) (OK []) never in
  let m := lab_module Coarse.qryValues in
  snd (Coarse.renderCurrent E m 100%float [])
  = current_scripts m "0" "0" "W" "kW"
  /\ snd (Coarse.renderCurrent E m 100.5%float [])
     = current_scripts m "0" "0" "kW" "W".
Proof. cbv zeta. split; vm_compute; reflexivity. Qed.


(** ** Runs of the worker *)

Lemma fine_worker_step_done (E : Env) (m : ModuleT) (s s' : Sys) :
  Fine.worker_step E m s s' -> done_closed s' = done_closed s.
Proof.
  intros [s0 _ | s0 _ | s0 c _ _].
  - destruct (NewTicker _); reflexivity.
  - unfold after_pass. destruct (Fine.pass E m (trace s0)) as [[[|] | p] tr]; reflexivity.
  - destruct c; reflexivity.
Qed.

Lemma coarse_worker_step_done (E : Env) (m : ModuleT) (s s' : Sys) :
  Coarse.worker_step E m s s' -> done_closed s' = done_closed s.
Proof.
  intros [s0 _ | s0 c _ _ | s0 _].
  - destruct (NewTicker _); reflexivity.
  - destruct c; reflexivity.
  - unfold after_pass. destruct (Coarse.pass E m (trace s0)) as [[[|] | p] tr]; reflexivity.
Qed.

Lemma close_inv (s s' : Sys) :
  Close s = (Ret None, s') ->
  done_closed s = false /\ s' = {| worker := worker s; done_closed := true;
                                   tick_ready := tick_ready s; trace := trace s |}.
Proof.
  unfold Close, close_chan. destruct (done_closed s); [discriminate |].
  intros H. injection H as <-. split; reflexivity.
Qed.

Lemma env_step_done (s s' : Sys) :
  env_step s s' -> done_closed s = true -> done_closed s' = true.
Proof.
  intros [s0 _ | s0 s1 Hclose] Hdone; [exact Hdone |].
  apply close_inv in Hclose as [Hopen _]. congruence.
Qed.

(** X10. The stop signal is never reopened: once it is closed it is closed
    in every later state of either version, whatever the worker and the
    ticker do, and any later call of [Close] panics. *)
Theorem X10_closed_stays_closed (E : Env) (m : ModuleT) (s s' : Sys) :
  rtc (Fine.step E m) s s' \/ rtc (Coarse.step E m) s s' ->
  done_closed s = true ->
  done_closed s' = true /\ fst (Close s') = Panicked CloseOfClosedChannel.
Proof.
  intros Hrun Hdone.
  assert (done_closed s' = true) as Hdone'.
  { destruct Hrun as [Hrun | Hrun];
      induction Hrun as [s | s1 s2 s3 [Hw | He] _ IH]; try assumption; apply IH.
    - rewrite (fine_worker_step_done E m s1 s2 Hw). exact Hdone.
    - exact (env_step_done s1 s2 He Hdone).
    - rewrite (coarse_worker_step_done E m s1 s2 Hw). exact Hdone.
    - exact (env_step_done s1 s2 He Hdone). }
  split; [exact Hdone' |]. unfold Close, close_chan. rewrite Hdone'. reflexivity.
Qed.

Lemma X10_closed_stays_closed_witness :
  done_closed (after_select CaseTick Fetching (at_worker Selecting true true)) = true
  /\ fst (Close (after_select CaseTick Fetching (at_worker Selecting true true)))
     = Panicked CloseOfClosedChannel.
Proof.
  refine (X10_closed_stays_closed (lab_env (status 200) (OK []) never)
            (lab_module Coarse.qryValues)
            (at_worker Selecting true true) _ (or_intror _) eq_refl).
  apply rtc_once. left. apply Coarse.step_select; [reflexivity |].
  right. left. reflexivity.
Defined.

Lemma stopped_step (E : Env) (m : ModuleT) (s s' : Sys) :
  Fine.step E m s s' \/ Coarse.step E m s s' ->
  stopped s ->
  worker s' = worker s /\ trace s' = trace s /\ tick_ready s' = tick_ready s.
Proof.
  intros Hstep Hstop.
  assert (env_step s s') as Henv.
  { destruct Hstop as [Hw | [p Hw]];
      destruct Hstep as [[Hstep | He] | [Hstep | He]];
      try exact He; inversion Hstep; congruence. }
  destruct Henv as [s0 [Hw | Hw] | s0 s1 Hclose].
  - destruct Hstop as [H | [p H]]; congruence.
  - destruct Hstop as [H | [p H]]; congruence.
  - apply close_inv in Hclose as [_ ->]. repeat split.
Qed.

(** X15. A worker that has returned or panicked never acts again: in every
    later state of either version it is in the same final state, the trace
    has not grown and the ticker has delivered nothing. *)
Theorem X15_stopped_is_final (E : Env) (m : ModuleT) (s s' : Sys) :
  rtc (Fine.step E m) s s' \/ rtc (Coarse.step E m) s s' ->
  stopped s ->
  worker s' = worker s /\ trace s' = trace s /\ tick_ready s' = tick_ready s.
Proof.
  intros Hrun Hstop.
  destruct Hrun as [Hrun | Hrun];
    induction Hrun as [s | s1 s2 s3 Hstep _ IH]; try (repeat split; fail).
  - destruct (stopped_step E m s1 s2 (or_introl Hstep) Hstop) as (Hw & Htr & Htk).
    destruct IH as (Hw' & Htr' & Htk').
    { unfold stopped in *. rewrite Hw. exact Hstop. }
    repeat split; congruence.
  - destruct (stopped_step E m s1 s2 (or_intror Hstep) Hstop) as (Hw & Htr & Htk).
    destruct IH as (Hw' & Htr' & Htk').
    { unfold stopped in *. rewrite Hw. exact Hstop. }
    repeat split; congruence.
Qed.

Lemma X15_stopped_is_final_witness :
  worker (snd (Close (at_worker Exited false false))) = Exited
  /\ trace (snd (Close (at_worker Exited false false))) = []
  /\ tick_ready (snd (Close (at_worker Exited false false))) = false.
Proof.
  refine (X15_stopped_is_final (lab_env (status 200) (OK []) never)
            (lab_module Fine.qryValues)
            (at_worker Exited false false) _ (or_introl _) (or_introl eq_refl)).
  apply rtc_once. right. apply env_close. reflexivity.
Defined.

Lemma returns_ret {A} (P : A -> Prop) (a : A) : P a -> returns P (ret a).
Proof. intros Ha tr a' tr' H. injection H as <- _. exact Ha. Qed.

Lemma returns_bind {A B} (P : B -> Prop) (c : Go A) (k : A -> Go B) :
  (forall a, returns P (k a)) -> returns P (gbind c k).
Proof.
  intros Hk tr b tr' H. unfold gbind in H.
  destruct (c tr) as [[a | p] tr1]; [| discriminate].
  exact (Hk a tr1 b tr' H).
Qed.

Lemma coarse_pass_continues (E : Env) (m : ModuleT) :
  returns (fun ctl => ctl = Continue) (Coarse.pass E m).
Proof.
  unfold Coarse.pass, Coarse.render.
  repeat first
    [ apply returns_ret; reflexivity
    | apply returns_bind; intros ?
    | match goal with
      | |- returns _ (match ?x with _ => _ end) => destruct x
      end ].
Qed.

(** X9. The coarse worker returns from [run] only when it was asked to:
    in every state it reaches after [New], if it has exited then the stop
    signal is closed.  No failure of a tick makes it exit. *)
Theorem X9_coarse_exits_on_close (E : Env) (m : ModuleT) (tr0 : list Event) (s : Sys) :
  rtc (Coarse.step E m) (spawned tr0) s ->
  worker s = Exited -> done_closed s = true.
Proof.
  intros Hrun.
  assert (worker (spawned tr0) = Exited -> done_closed (spawned tr0) = true) as Hinit
    by discriminate.
  induction Hrun as [s | s1 s2 s3 Hstep _ IH]; [exact Hinit |].
  apply IH. clear IH. intros Hexit.
  destruct Hstep as [Hw | He].
  - destruct Hw as [s0 _ | s0 c _ Hc | s0 _].
    + destruct (NewTicker _); discriminate.
    + apply select_ready_cases in Hc as [[-> Hdone] | [-> _]];
        [exact Hdone | discriminate].
    + unfold after_pass in Hexit.
      destruct (Coarse.pass E m (trace s0)) as [[ctl | p] tr] eqn:Hpass;
        [| discriminate].
      rewrite (coarse_pass_continues E m _ _ _ Hpass) in Hexit. discriminate.
  - destruct He as [s0 _ | s0 s1 Hclose]; [exact (Hinit Hexit) |].
    apply close_inv in Hclose as [_ ->]. reflexivity.
Qed.

Lemma X9_coarse_exits_on_close_witness :
  done_closed
    (after_select CaseDone Fetching
       (snd (Close (with_worker Selecting (spawned [])))))
  = true.
Proof.
  refine (X9_coarse_exits_on_close (lab_env (status 200) (OK []) never)
            (lab_module Coarse.qryValues) []
            (after_select CaseDone Fetching
               (snd (Close (with_worker Selecting (spawned [])))))
            _ eq_refl).
  apply (rtc_l _ _ (with_worker Selecting (spawned []))).
  { left. exact (Coarse.step_start _ (lab_module Coarse.qryValues) (spawned []) eq_refl). }
  apply (rtc_l _ _ (snd (Close (with_worker Selecting (spawned []))))).
  { right. apply env_close. reflexivity. }
  apply rtc_once. left. apply Coarse.step_select; [reflexivity |].
  left. reflexivity.
Defined.

(** X11. With an interval of zero or less, [time.NewTicker] panics at the
    start of [run]: in every state either version reaches after [New] the
    worker is still starting or has crashed on the ticker, and the trace is
    the one [New] left, so no request was ever sent. *)
Theorem X11_non_positive_interval (E : Env) (m : ModuleT) (tr0 : list Event) (s : Sys) :
  Interval (cfg m) <= 0 ->
  rtc (Fine.step E m) (spawned tr0) s \/ rtc (Coarse.step E m) (spawned tr0) s ->
  trace s = tr0
  /\ (worker s = Starting \/ worker s = Crashed NonPositiveTicker).
Proof.
  intros Hd Hrun.
  assert (trace (spawned tr0) = tr0
          /\ (worker (spawned tr0) = Starting
              \/ worker (spawned tr0) = Crashed NonPositiveTicker)) as Hinit
    by (split; [reflexivity | left; reflexivity]).
  assert (NewTicker (Interval (cfg m)) = Panicked NonPositiveTicker) as Hticker.
  { unfold NewTicker. destruct (Z.leb_spec (Interval (cfg m)) 0); [reflexivity | lia]. }
  assert (forall s1 s2,
            Fine.step E m s1 s2 \/ Coarse.step E m s1 s2 ->
            trace s1 = tr0 /\ (worker s1 = Starting \/ worker s1 = Crashed NonPositiveTicker) ->
            trace s2 = tr0 /\ (worker s2 = Starting \/ worker s2 = Crashed NonPositiveTicker))
    as Hstep.
  { intros s1 s2 Hs [Htr Hw].
    destruct Hs as [[Hs | He] | [Hs | He]].
    - destruct Hs as [s0 _ | s0 H | s0 c H _];
        [rewrite Hticker; split; [exact Htr | right; reflexivity] | |];
        destruct Hw; congruence.
    - destruct He as [s0 [H | H] | s0 s1 Hclose];
        [destruct Hw; congruence | destruct Hw; congruence |].
      apply close_inv in Hclose as [_ ->]. split; assumption.
    - destruct Hs as [s0 _ | s0 c H _ | s0 H];
        [rewrite Hticker; split; [exact Htr | right; reflexivity] | |];
        destruct Hw; congruence.
    - destruct He as [s0 [H | H] | s0 s1 Hclose];
        [destruct Hw; congruence | destruct Hw; congruence |].
      apply close_inv in Hclose as [_ ->]. split; assumption. }
  destruct Hrun as [Hrun | Hrun];
    induction Hrun as [s | s1 s2 s3 Hs _ IH]; try exact Hinit;
    apply IH; eapply Hstep; eauto.
Qed.

Lemma X11_non_positive_interval_witness :
  trace (with_worker (Crashed NonPositiveTicker) (spawned [])) = []
  /\ (worker (with_worker (Crashed NonPositiveTicker) (spawned [])) = Starting
      \/ worker (with_worker (Crashed NonPositiveTicker) (spawned []))
         = Crashed NonPositiveTicker).
Proof.
  refine (X11_non_positive_interval (lab_env (status 200) (OK []) never)
            stalled_module []
            (with_worker (Crashed NonPositiveTicker) (spawned [])) _ (or_introl _)).
  - simpl. lia.
  - apply rtc_once. left.
    exact (Fine.step_start _ stalled_module (spawned []) eq_refl).
Defined.

(** X12. The coarse worker waits for the ticker before it polls: as long
    as the ticker has delivered nothing, whatever the worker and the host
    do, the trace is the one [New] left and the worker is not fetching. *)
Theorem X12_coarse_waits_for_tick (E : Env) (m : ModuleT) (tr0 : list Event) (s : Sys) :
  rtc (untimed_step (Coarse.worker_step E m)) (spawned tr0) s ->
  trace s = tr0 /\ tick_ready s = false /\ worker s <> Fetching.
Proof.
  intros Hrun.
  assert (trace (spawned tr0) = tr0 /\ tick_ready (spawned tr0) = false
          /\ worker (spawned tr0) <> Fetching) as Hinit
    by (repeat split; discriminate).
  induction Hrun as [s | s1 s2 s3 Hs _ IH]; [exact Hinit |].
  apply IH. clear IH. destruct Hinit as (Htr & Htk & Hw).
  destruct Hs as [Hs | Hclose].
  - destruct Hs as [s0 _ | s0 c _ Hc | s0 H]; [| | congruence].
    + destruct (NewTicker _); repeat split; try assumption; discriminate.
    + apply select_ready_cases in Hc as [[-> _] | [_ Hready]]; [| congruence].
      repeat split; try assumption. discriminate.
  - apply close_inv in Hclose as [_ ->]. repeat split; assumption.
Qed.

Lemma X12_coarse_waits_for_tick_witness :
  trace (snd (Close (with_worker Selecting (spawned [])))) = []
  /\ tick_ready (snd (Close (with_worker Selecting (spawned [])))) = false
  /\ worker (snd (Close (with_worker Selecting (spawned [])))) <> Fetching.
Proof.
  refine (X12_coarse_waits_for_tick (lab_env (status 200) (OK []) never)
            (lab_module Coarse.qryValues) []
            (snd (Close (with_worker Selecting (spawned [])))) _).
  apply (rtc_l _ _ (with_worker Selecting (spawned []))).
  { left. exact (Coarse.step_start _ (lab_module Coarse.qryValues) (spawned []) eq_refl). }
  apply rtc_once. right. reflexivity.
Defined.

Lemma bind_trace {A B} (c : Go A) (k : A -> Go B) (tr : list Event) :
  (forall a, adds (fun _ => True) (k a)) ->
  exists rest, snd (gbind c k tr) = snd (c tr) ++ rest.
Proof.
  intros Hk. unfold gbind. destruct (c tr) as [[a | p] tr1]; cbn [snd].
  - destruct (Hk a tr1) as (evs & Htr & _). exists evs. exact Htr.
  - exists []. symmetry. apply app_nil_r.
Qed.

Lemma request_sends (E : Env) (m : ModuleT) (tr : list Event) (u : url_URL) :
  URL_Parse E (baseURL m) apiQueryPath = OK u ->
  http_NewRequest E "GET" (target E m) = None ->
  exists rest, snd (request E m tr) = tr ++ EvHttpDo "GET" (target E m) :: rest.
Proof.
  unfold request, target, gbind, call, defer, ret. intros -> ->.
  destruct (http_Do E tr "GET" _) as [resp | err]; cbn [snd].
  - exists [EvBodyClose].
    destruct (negb _); [| destruct (json_Decode _ _)]; cbn [snd];
      rewrite <- app_assoc; reflexivity.
  - exists []. reflexivity.
Qed.

Lemma fine_pass_after_request (E : Env) (m : ModuleT) (tr : list Event) :
  exists rest, snd (Fine.pass E m tr) = snd (request E m tr) ++ rest.
Proof.
  unfold Fine.pass. apply bind_trace. intros r.
  unfold Fine.render, log_Error, Eval.
  repeat adds_step; exact I.
Qed.

(** X13. The fine worker polls before it looks at the stop signal: with a
    positive interval, the only steps it can take after [New] are to make
    the ticker and then to run a whole pass, even when the module was
    closed in between, and when the URL resolves and the request can be
    created that pass begins with the GET. *)
Theorem X13_fine_polls_at_once (E : Env) (m : ModuleT) (tr0 : list Event)
    (closed : bool) :
  0 < Interval (cfg m) ->
  let s0 := {| worker := Starting; done_closed := closed;
               tick_ready := false; trace := tr0 |} in
  let s1 := with_worker Fetching s0 in
  let s2 := after_pass Selecting (Fine.pass E m) s1 in
  (forall s, Fine.worker_step E m s0 s <-> s = s1)
  /\ (forall s, Fine.worker_step E m s1 s <-> s = s2)
  /\ (forall u,
        URL_Parse E (baseURL m) apiQueryPath = OK u ->
        http_NewRequest E "GET" (target E m) = None ->
        exists rest, trace s2 = tr0 ++ EvHttpDo "GET" (target E m) :: rest).
Proof.
  intros Hd s0 s1 s2.
  assert (NewTicker (Interval (cfg m)) = Ret tt) as Hticker.
  { unfold NewTicker. destruct (Z.leb_spec (Interval (cfg m)) 0); [lia | reflexivity]. }
  split; [| split].
  - intros s. split.
    + intros Hs. inversion Hs as [sa Ha | sa Ha | sa c Ha]; subst;
        try discriminate. rewrite Hticker. reflexivity.
    + intros ->. pose proof (Fine.step_start E m s0 eq_refl) as Hs.
      rewrite Hticker in Hs. exact Hs.
  - intros s. split.
    + intros Hs. inversion Hs as [sa Ha | sa Ha | sa c Ha]; subst;
        try discriminate. reflexivity.
    + intros ->. exact (Fine.step_pass E m s1 eq_refl).
  - intros u Hu Hreq. unfold s2. rewrite after_pass_trace.
    change (trace s1) with tr0.
    destruct (fine_pass_after_request E m tr0) as (rest & ->).
    destruct (request_sends E m tr0 u Hu Hreq) as (rest' & ->).
    exists (rest' ++ rest). rewrite <- app_assoc. reflexivity.
Qed.

Lemma X13_fine_polls_at_once_witness :
  exists rest,
    trace (after_pass Selecting
             (Fine.pass (lab_env (status 200) (OK [[100; 500]]%float) never)
                        (lab_module Fine.qryValues))
             (with_worker Fetching
                {| worker := Starting; done_closed := true;
                   tick_ready := false; trace := [] |}))
    = [] ++ EvHttpDo "GET" "http://iotawatt.local/query?select=[time.utc.unix,input1]"
            :: rest.
Proof.
  refine (proj2 (proj2 (X13_fine_polls_at_once
                         (lab_env (status 200) (OK [[100; 500]]%float) never)
                         (lab_module Fine.qryValues) [] true _))
           {| Loc := "http://iotawatt.local/query"; RawQuery := "" |}
           eq_refl eq_refl).
  reflexivity.
Defined.


(** ** The effects of a run *)

Lemma fine_pass_effects (E : Env) (m : ModuleT) :
  adds (worker_effect m) (Fine.pass E m).
Proof.
  unfold Fine.pass. apply adds_bind.
  - eapply adds_weaken; [| apply request_adds].
    intros e [-> | ->]; exact I.
  - intros r. unfold Fine.render, log_Error, Eval.
    repeat adds_step;
      solve [ exact I
            | split; [unfold run_messages; simpl; tauto | eexists; reflexivity] ].
Qed.

Lemma coarse_pass_effects (E : Env) (m : ModuleT) :
  adds (worker_effect m) (Coarse.pass E m).
Proof.
  unfold Coarse.pass. apply adds_bind.
  - eapply adds_weaken; [| apply request_adds].
    intros e [-> | ->]; exact I.
  - intros r. unfold Coarse.render, Coarse.renderCurrent, log_Error, Eval.
    repeat adds_step;
      solve [ exact I
            | split; [unfold run_messages; simpl; tauto | eexists; reflexivity] ].
Qed.

Lemma run_adds (P : Event -> Prop) (step : Sys -> Sys -> Prop) (pass : Go Ctl)
    (s s' : Sys) :
  adds P pass ->
  (forall s1 s2, step s1 s2 ->
     trace s2 = trace s1 \/ trace s2 = snd (pass (trace s1))) ->
  rtc step s s' ->
  exists evs, trace s' = trace s ++ evs /\ Forall P evs.
Proof.
  intros Hadds Hstep Hrun.
  induction Hrun as [s | s1 s2 s3 Hs _ IH].
  - exists []. split; [symmetry; apply app_nil_r | constructor].
  - destruct IH as (evs & Htr & Hevs).
    destruct (Hstep s1 s2 Hs) as [Hsame | Hpass].
    + exists evs. rewrite Htr, Hsame. split; [reflexivity | exact Hevs].
    + destruct (Hadds (trace s1)) as (evs0 & Htr0 & Hevs0).
      exists (evs0 ++ evs). split.
      * rewrite Htr, Hpass, Htr0. symmetry. apply app_assoc.
      * apply Forall_app. split; assumption.
Qed.

Lemma fine_step_trace (E : Env) (m : ModuleT) (s1 s2 : Sys) :
  Fine.step E m s1 s2 ->
  trace s2 = trace s1 \/ trace s2 = snd (Fine.pass E m (trace s1)).
Proof.
  intros [Hw | He]; [| left; exact (env_step_trace s1 s2 He)].
  destruct Hw as [s0 _ | s0 _ | s0 c _ _].
  - left. destruct (NewTicker _); reflexivity.
  - right. apply after_pass_trace.
  - left. destruct c; reflexivity.
Qed.

Lemma coarse_step_trace (E : Env) (m : ModuleT) (s1 s2 : Sys) :
  Coarse.step E m s1 s2 ->
  trace s2 = trace s1 \/ trace s2 = snd (Coarse.pass E m (trace s1)).
Proof.
  intros [Hw | He]; [| left; exact (env_step_trace s1 s2 He)].
  destruct Hw as [s0 _ | s0 c _ _ | s0 _].
  - left. destruct (NewTicker _); reflexivity.
  - left. destruct c; reflexivity.
  - right. apply after_pass_trace.
Qed.

(** X14. After construction the module only polls, renders and logs: in
    every run of either version the trace only grows, and what the worker
    adds is a request, the closing of a body, a script, or a log entry
    under one of the five messages of [run], keyed module=iotawatt and
    id=the module's name.  It never reads a file and never loads the style
    sheet or the page again. *)
Theorem X14_run_effects (E : Env) (m : ModuleT) (s s' : Sys) :
  rtc (Fine.step E m) s s' \/ rtc (Coarse.step E m) s s' ->
  exists evs, trace s' = trace s ++ evs /\ Forall (worker_effect m) evs.
Proof.
  intros [Hrun | Hrun].
  - exact (run_adds _ _ _ s s' (fine_pass_effects E m) (fine_step_trace E m) Hrun).
  - exact (run_adds _ _ _ s s' (coarse_pass_effects E m) (coarse_step_trace E m) Hrun).
Qed.

Lemma X14_run_effects_witness :
  exists evs,
    trace (after_pass Selecting
             (Fine.pass (lab_env (status 500) (OK []) never) (lab_module Fine.qryValues))
             (at_worker Fetching false false))
    = trace (at_worker Fetching false false) ++ evs
    /\ Forall (worker_effect (lab_module Fine.qryValues)) evs.
Proof.
  refine (X14_run_effects (lab_env (status 500) (OK []) never)
            (lab_module Fine.qryValues) (at_worker Fetching false false) _
            (or_introl _)).
  apply rtc_once. left. apply Fine.step_pass. reflexivity.
Defined.


(** ** Response bodies *)

Lemma bodies_walk_app (E : Env) (evs1 evs2 : list Event) :
  forall (opened : bool) (tr : list Event),
    bodies_walk E opened tr evs1 ->
    bodies_walk E false (tr ++ evs1) evs2 ->
    bodies_walk E opened tr (evs1 ++ evs2).
Proof.
  induction evs1 as [| e evs1 IH]; intros opened tr H1 H2.
  - cbn in H1. subst opened. rewrite app_nil_r in H2. exact H2.
  - replace (tr ++ e :: evs1) with ((tr ++ [e]) ++ evs1) in H2
      by (rewrite <- app_assoc; reflexivity).
    destruct e; cbn [app bodies_walk] in *; destruct H1 as [Ho H1];
      (split; [exact Ho |]); apply IH; assumption.
Qed.

Lemma bodies_walk_bodiless (E : Env) (evs : list Event) :
  Forall bodiless evs -> forall tr, bodies_walk E false tr evs.
Proof.
  induction 1 as [| e evs He _ IH]; intros tr; [reflexivity |].
  destruct e; cbn in He; try contradiction; cbn [bodies_walk];
    (split; [reflexivity | apply IH]).
Qed.

Lemma closes_bodiless {A} (E : Env) (c : Go A) : adds bodiless c -> closes E c.
Proof.
  intros Hc tr. destruct (Hc tr) as (evs & Htr & Hevs).
  exists evs. split; [exact Htr | apply bodies_walk_bodiless; exact Hevs].
Qed.

Lemma closes_bind {A B} (E : Env) (c : Go A) (k : A -> Go B) :
  closes E c -> (forall a, closes E (k a)) -> closes E (gbind c k).
Proof.
  intros Hc Hk tr. unfold gbind.
  destruct (Hc tr) as (evs & Htr & Hevs).
  destruct (c tr) as [[a | p] tr1]; cbn [snd] in Htr; subst tr1.
  - destruct (Hk a (tr ++ evs)) as (evs' & Htr' & Hevs').
    exists (evs ++ evs'). split.
    + rewrite Htr'. symmetry. apply app_assoc.
    + apply bodies_walk_app; assumption.
  - exists evs. split; [reflexivity | exact Hevs].
Qed.

Lemma request_closes (E : Env) (m : ModuleT) : closes E (request E m).
Proof.
  intros tr. unfold request, gbind, call, defer, ret.
  destruct (URL_Parse E (baseURL m) apiQueryPath) as [u | e0];
    [| exists []; split; [symmetry; apply app_nil_r | reflexivity]].
  destruct (http_NewRequest E "GET" _) as [e1 |];
    [exists []; split; [symmetry; apply app_nil_r | reflexivity] |].
  destruct (http_Do E tr "GET" _) as [resp | e2] eqn:Hdo.
  - eexists [_; _]. split.
    + destruct (negb _); [| destruct (json_Decode _ _)]; cbn [snd];
        rewrite <- app_assoc; reflexivity.
    + unfold bodies_closed. cbn [bodies_walk]. rewrite Hdo. repeat split.
  - eexists [_]. split; [reflexivity |].
    unfold bodies_closed. cbn [bodies_walk]. rewrite Hdo. repeat split.
Qed.

Lemma fine_pass_closes (E : Env) (m : ModuleT) : closes E (Fine.pass E m).
Proof.
  unfold Fine.pass. apply closes_bind; [apply request_closes |].
  intros r. apply closes_bodiless.
  unfold Fine.render, log_Error, Eval. repeat adds_step; exact I.
Qed.

Lemma coarse_pass_closes (E : Env) (m : ModuleT) : closes E (Coarse.pass E m).
Proof.
  unfold Coarse.pass. apply closes_bind; [apply request_closes |].
  intros r. apply closes_bodiless.
  unfold Coarse.render, Coarse.renderCurrent, log_Error, Eval.
  repeat adds_step; exact I.
Qed.

Lemma run_closes (E : Env) (step : Sys -> Sys -> Prop) (pass : Go Ctl) (s s' : Sys) :
  closes E pass ->
  (forall s1 s2, step s1 s2 ->
     trace s2 = trace s1 \/ trace s2 = snd (pass (trace s1))) ->
  rtc step s s' ->
  exists evs, trace s' = trace s ++ evs /\ bodies_closed E (trace s) evs.
Proof.
  intros Hcloses Hstep Hrun.
  induction Hrun as [s | s1 s2 s3 Hs _ IH].
  - exists []. split; [symmetry; apply app_nil_r | reflexivity].
  - destruct IH as (evs & Htr & Hevs).
    destruct (Hstep s1 s2 Hs) as [Hsame | Hpass].
    + exists evs. rewrite Htr, Hsame. split; [reflexivity |].
      rewrite <- Hsame. exact Hevs.
    + destruct (Hcloses (trace s1)) as (evs0 & Htr0 & Hevs0).
      exists (evs0 ++ evs). split.
      * rewrite Htr, Hpass, Htr0. symmetry. apply app_assoc.
      * apply bodies_walk_app; [exact Hevs0 |].
        rewrite <- Htr0, <- Hpass. exact Hevs.
Qed.

(** X8. No response body is left open: in every run of either version,
    each GET the transport answered is followed at once by the closing of
    its body, whether the status was 200 or not and whether the body
    decoded or not; a GET the transport failed is followed by no closing,
    and nothing else closes a body. *)
Theorem X8_bodies_closed (E : Env) (m : ModuleT) (s s' : Sys) :
  rtc (Fine.step E m) s s' \/ rtc (Coarse.step E m) s s' ->
  exists evs, trace s' = trace s ++ evs /\ bodies_closed E (trace s) evs.
Proof.
  intros [Hrun | Hrun].
  - exact (run_closes E _ _ s s' (fine_pass_closes E m) (fine_step_trace E m) Hrun).
  - exact (run_closes E _ _ s s' (coarse_pass_closes E m) (coarse_step_trace E m) Hrun).
Qed.

Lemma X8_bodies_closed_witness :
  exists evs,
    trace (after_pass Selecting
             (Coarse.pass (lab_env (status 404) (OK []) never)
                          (lab_module Coarse.qryValues))
             (at_worker Fetching false false))
    = trace (at_worker Fetching false false) ++ evs
    /\ bodies_closed (lab_env (status 404) (OK []) never)
         (trace (at_worker Fetching false false)) evs.
Proof.
  refine (X8_bodies_closed (lab_env (status 404) (OK []) never)
            (lab_module Coarse.qryValues) (at_worker Fetching false false) _
            (or_intror _)).
  apply rtc_once. left. apply Coarse.step_pass. reflexivity.
Defined.


(** ** The select list *)

Lemma split_commas_single (x : string) :
  comma_free x = true -> split_commas x = [x].
Proof.
  induction x as [| c x IH]; intros Hx; [reflexivity |].
  cbn in Hx. apply andb_true_iff in Hx as [Hc Hx].
  cbn [split_commas]. apply negb_true_iff in Hc. rewrite Hc, (IH Hx). reflexivity.
Qed.

Lemma split_commas_cons (x rest : string) :
  comma_free x = true ->
  split_commas (x +:+ "," +:+ rest) = x :: split_commas rest.
Proof.
  induction x as [| c x IH]; intros Hx; [reflexivity |].
  cbn in Hx. apply andb_true_iff in Hx as [Hc Hx].
  change (String c x +:+ "," +:+ rest) with (String c (x +:+ "," +:+ rest)).
  cbn [split_commas]. apply negb_true_iff in Hc.
  rewrite Hc, (IH Hx). reflexivity.
Qed.

Lemma split_commas_join (x : string) (xs : list string) :
  Forall (fun y => comma_free y = true) (x :: xs) ->
  split_commas (strings_Join (x :: xs) ",") = x :: xs.
Proof.
  revert x. induction xs as [| y xs IH]; intros x Hall.
  - apply split_commas_single. inversion Hall; assumption.
  - inversion Hall as [| ? ? Hx Hrest]; subst.
    change (strings_Join (x :: y :: xs) ",")
      with (x +:+ "," +:+ strings_Join (y :: xs) ",").
    rewrite (split_commas_cons x _ Hx), (IH y Hrest). reflexivity.
Qed.

Lemma strip_close_app (x : string) : strip_close (x +:+ "]") = Some x.
Proof.
  induction x as [| c x IH]; [reflexivity |].
  change (String c x +:+ "]") with (String c (x +:+ "]")).
  cbn [strip_close]. rewrite IH.
  destruct x; reflexivity.
Qed.

Lemma select_parses (inputs : list string) :
  Forall (fun y => comma_free y = true) inputs ->
  parse_select ("[" +:+ strings_Join ("time.utc.unix" :: inputs) "," +:+ "]")
  = Some ("time.utc.unix" :: inputs).
Proof.
  intros Hall.
  change ("[" +:+ strings_Join ("time.utc.unix" :: inputs) "," +:+ "]")
    with (String "["%char (strings_Join ("time.utc.unix" :: inputs) "," +:+ "]")).
  unfold parse_select. change (Ascii.eqb "[" "[")%char with true. cbv iota.
  rewrite strip_close_app. cbn [fmap option_fmap option_map].
  rewrite split_commas_join; [reflexivity |].
  constructor; [reflexivity | exact Hall].
Qed.

(** X5. The select list of the query keeps the configured inputs and their
    order: when no input name contains a comma, reading the list back
    between its brackets and commas gives time.utc.unix followed by the
    inputs as configured, in both versions, so two configurations with the
    same select list have the same inputs.  [New] neither checks nor
    escapes the names. *)
Theorem X5_select_round_trip (c1 c2 : Config) :
  Forall (fun y => comma_free y = true) (Inputs c1) ->
  Forall (fun y => comma_free y = true) (Inputs c2) ->
  (exists v,
     Fine.qryValues c1 !! "select" = Some [v]
     /\ Coarse.qryValues c1 !! "select" = Some [v]
     /\ parse_select v = Some ("time.utc.unix" :: Inputs c1))
  /\ (Fine.qryValues c1 !! "select" = Fine.qryValues c2 !! "select" ->
      Inputs c1 = Inputs c2).
Proof.
  intros H1 H2. split.
  - eexists. split; [reflexivity |]. split; [reflexivity |].
    apply (select_parses (Inputs c1) H1).
  - intros Heq.
    pose proof (select_parses (Inputs c1) H1) as P1.
    pose proof (select_parses (Inputs c2) H2) as P2.
    set (v1 := "[" +:+ strings_Join ("time.utc.unix" :: Inputs c1) "," +:+ "]") in *.
    set (v2 := "[" +:+ strings_Join ("time.utc.unix" :: Inputs c2) "," +:+ "]") in *.
    assert (Some [v1] = Some [v2]) as Hv by exact Heq.
    assert (v1 = v2) as Hv' by congruence.
    rewrite Hv' in P1. congruence.
Qed.

Lemma X5_select_round_trip_witness :
  exists v,
    Fine.qryValues lab_config !! "select" = Some [v]
    /\ Coarse.qryValues lab_config !! "select" = Some [v]
    /\ parse_select v = Some ["time.utc.unix"; "input1"].
Proof.
  refine (proj1 (X5_select_round_trip lab_config lab_config _ _));
    repeat constructor.
Defined.

Example select_is_not_escaped :
  Fine.qryValues {| URL := ""; Inputs := ["a,b"]; Interval := Second |} !! "select"
  = Fine.qryValues {| URL := ""; Inputs := ["a"; "b"]; Interval := Second |} !! "select".
Proof. reflexivity. Qed.

(** ** Which responses crash the worker *)

Lemma long_or_short (n : nat) (row : list float) :
  {long n row} + {short (Z.of_nat n) row}.
Proof.
  unfold long, short.
  destruct (le_lt_dec (1 + n) (length row)) as [H | H]; [left; exact H | right; lia].
Qed.

Lemma fine_rows_no_inputs (raw : list (list float)) (c : float) (ser : list series) :
  exists c', for_each raw (Fine.row_step 0) (c, ser) = Ret (c', ser).
Proof.
  revert c. induction raw as [| row raw IH]; intros c.
  - exists c. reflexivity.
  - cbn [for_each]. change (Fine.row_step 0 row (c, ser)) with (Ret (0%float, ser)).
    cbn [obind]. apply IH.
Qed.

(** X4. The fine aggregation returns exactly when no input is configured
    or every row has a timestamp and a value for each input; in every
    other case it panics with an index out of range.  An empty row, and a
    row of any length, are harmless when no input is configured. *)
Theorem X4_fine_aggregate_returns (inputs : list string) (raw : list (list float)) :
  ((exists r, Fine.aggregate inputs raw = Ret r)
   <-> inputs = [] \/ Forall (long (length inputs)) raw)
  /\ ((exists r, Fine.aggregate inputs raw = Ret r)
      \/ exists i len, Fine.aggregate inputs raw = Panicked (IndexOutOfRange i len)).
Proof.
  assert (inputs = [] -> exists r, Fine.aggregate inputs raw = Ret r) as Hnone.
  { intros ->. unfold Fine.aggregate.
    destruct (fine_rows_no_inputs raw 0%float (make_series 0)) as (c' & H).
    eexists. exact H. }
  assert (Forall (long (length inputs)) raw ->
          exists r, Fine.aggregate inputs raw = Ret r) as Hlong.
  { intros Hraw.
    destruct (fine_rows_general (length inputs) raw Hraw 0%float
                (make_series (length inputs)) (length_make_series _))
      as (ser & Hrun & _).
    eexists. exact Hrun. }
  assert (inputs <> [] -> Exists (short (Z.of_nat (length inputs))) raw ->
          exists i len, Fine.aggregate inputs raw = Panicked (IndexOutOfRange i len))
    as Hshort.
  { intros Hne Hex.
    destruct (fine_aggregate_short inputs raw) as (i & len & H & _); [| exact Hex |].
    - destruct inputs; [congruence | simpl; lia].
    - exists i, len. exact H. }
  destruct (Forall_Exists_dec (long (length inputs))
              (short (Z.of_nat (length inputs)))
              (long_or_short (length inputs)) raw) as [Hall | Hex].
  - split; [| left; exact (Hlong Hall)].
    split; [intros _; right; exact Hall | intros _; exact (Hlong Hall)].
  - destruct inputs as [| a inputs].
    + split; [| left; exact (Hnone eq_refl)].
      split; [intros _; left; reflexivity | intros _; exact (Hnone eq_refl)].
    + destruct (Hshort ltac:(discriminate) Hex) as (i & len & Hp).
      split; [| right; exists i, len; exact Hp].
      split.
      * intros [r Hr]. rewrite Hp in Hr. discriminate.
      * intros [Hnil | Hall]; [discriminate |].
        exfalso. apply Exists_exists in Hex as (row & Hin & Hrow).
        rewrite Forall_forall in Hall. specialize (Hall row Hin).
        unfold long, short in *. lia.
Qed.


Lemma coarse_channels_run (row : list float) (xs : list Z) :
  forall ser : list series,
    Forall (fun i => 1 <= i <= Z.of_nat (length ser) /\ i < Z.of_nat (length row)) xs ->
    exists ser',
      for_each xs (Coarse.channel_step row) ser = Ret ser'
      /\ length ser' = length ser.
Proof.
  induction xs as [| i xs IH]; intros ser Hxs.
  - exists ser. split; reflexivity.
  - inversion Hxs as [| ? ? [Hi Hrow] Hrest]; subst.
    cbn [for_each]. unfold Coarse.channel_step at 1.
    destruct (index_in row 0) as (r0 & -> & _); [lia |]. cbn [obind].
    destruct (index_in row i) as (ri & -> & _); [lia |]. cbn [obind].
    destruct (push_point_ok ser (i - 1) [r0; ri]) as (ser1 & -> & Hlen); [lia |].
    cbn [obind].
    destruct (IH ser1) as (ser' & Hrun & Hlen').
    + rewrite Hlen. exact Hrest.
    + exists ser'. split; [exact Hrun | congruence].
Qed.

Lemma coarse_channels_short (n : nat) (row : list float) (ser : list series) :
  length ser = n -> long 0 row -> short (Z.of_nat n) row ->
  for_each (seqZ 1 (Z.of_nat n)) (Coarse.channel_step row) ser
  = Panicked (IndexOutOfRange (Z.of_nat (length row)) (Z.of_nat (length row))).
Proof.
  intros Hser Hne Hshort. unfold long, short in *.
  set (k := Z.of_nat (length row)).
  rewrite (seqZ_split (Z.of_nat n) k) by lia. rewrite for_each_app.
  destruct (coarse_channels_run row (seqZ 1 (k - 1)) ser) as (ser' & -> & _).
  - apply Forall_forall. intros i Hi. apply elem_of_seqZ in Hi. lia.
  - cbn [obind for_each]. unfold Coarse.channel_step at 1.
    destruct (index_in row 0) as (r0 & -> & _); [lia |]. cbn [obind].
    rewrite (index_out row k) by lia. reflexivity.
Qed.

Lemma coarse_row_ok_dec (oor : float -> Z) (n : nat) (row : list float) :
  {coarse_row_ok oor n row} + {~ coarse_row_ok oor n row}.
Proof.
  unfold coarse_row_ok, long.
  destruct (le_lt_dec (1 + 0) (length row)) as [H0 | H0];
    [| right; intros [H _]; lia].
  destruct (kept oor row) eqn:Hk.
  - destruct (le_lt_dec (1 + n) (length row)) as [Hn | Hn].
    + left. split; [exact H0 | intros _; exact Hn].
    + right. intros [_ H]. specialize (H eq_refl). lia.
  - left. split; [exact H0 | discriminate].
Qed.

Lemma coarse_row_outcome (oor : float -> Z) (n : nat) (row : list float)
    (ser : list series) :
  length ser = n ->
  (coarse_row_ok oor n row ->
   exists ser', Coarse.row_step oor (Z.of_nat n) row ser = Ret ser'
                /\ length ser' = n)
  /\ (~ coarse_row_ok oor n row ->
      exists i len,
        Coarse.row_step oor (Z.of_nat n) row ser = Panicked (IndexOutOfRange i len)).
Proof.
  intros Hser. unfold Coarse.row_step.
  destruct row as [| r0 row].
  - split.
    + intros [H _]. unfold long in H. simpl in H. lia.
    + intros _. eexists _, _. reflexivity.
  - change (index (r0 :: row) 0) with (Ret r0). cbn [obind].
    change (Coarse.skipped oor r0) with (negb (kept oor (r0 :: row))).
    assert (long 0 (r0 :: row)) as H0 by (unfold long; simpl; lia).
    destruct (kept oor (r0 :: row)) eqn:Hk; cbn [negb].
    + destruct (long_or_short n (r0 :: row)) as [Hlong | Hshort].
      * split; [| intros Hbad; exfalso; apply Hbad; split; [exact H0 | intros _; exact Hlong]].
        intros _.
        destruct (coarse_channels_prefix (r0 :: row) ser n Hser Hlong n (le_n n))
          as (ser' & Hrun & Hlen & _).
        exists ser'. split; assumption.
      * split.
        -- intros [_ H]. specialize (H Hk). unfold long, short in *. lia.
        -- intros _. rewrite (coarse_channels_short n (r0 :: row) ser Hser H0 Hshort).
           eexists _, _. reflexivity.
    + split; [intros _; exists ser; split; [reflexivity | exact Hser] |].
      intros Hbad. exfalso. apply Hbad. split; [exact H0 | congruence].
Qed.

Lemma coarse_rows_outcome (oor : float -> Z) (n : nat) (raw : list (list float)) :
  forall ser : list series,
    length ser = n ->
    (Forall (coarse_row_ok oor n) raw ->
     exists ser', for_each raw (Coarse.row_step oor (Z.of_nat n)) ser = Ret ser')
    /\ (~ Forall (coarse_row_ok oor n) raw ->
        exists i len,
          for_each raw (Coarse.row_step oor (Z.of_nat n)) ser
          = Panicked (IndexOutOfRange i len)).
Proof.
  induction raw as [| row raw IH]; intros ser Hser.
  - split; [intros _; exists ser; reflexivity | intros H; exfalso; apply H; constructor].
  - destruct (coarse_row_outcome oor n row ser Hser) as [Hok Hbad].
    cbn [for_each].
    destruct (coarse_row_ok_dec oor n row) as [Hrow | Hrow].
    + destruct (Hok Hrow) as (ser1 & -> & Hlen1). cbn [obind].
      destruct (IH ser1 Hlen1) as [IHok IHbad]. split.
      * intros Hall. apply IHok. inversion Hall; assumption.
      * intros Hnot. apply IHbad. intros Hall. apply Hnot. constructor; assumption.
    + destruct (Hbad Hrow) as (i & len & ->). cbn [obind]. split.
      * intros Hall. inversion Hall; contradiction.
      * intros _. exists i, len. reflexivity.
Qed.

Lemma coarse_total_outcome (n : nat) (raw : list (list float)) :
  (coarse_last_ok n raw ->
   exists c, for_each (seqZ 1 (Z.of_nat n))
               (Coarse.total_step raw (Z.of_nat (length raw))) 0%float = Ret c)
  /\ (~ coarse_last_ok n raw ->
      exists i len,
        for_each (seqZ 1 (Z.of_nat n))
          (Coarse.total_step raw (Z.of_nat (length raw))) 0%float
        = Panicked (IndexOutOfRange i len)).
Proof.
  unfold coarse_last_ok. destruct n as [| n].
  - split; [intros _; exists 0%float; reflexivity |].
    intros H. exfalso. apply H. left. reflexivity.
  - destruct (last raw) as [row |] eqn:Hlast.
    + destruct (long_or_short (S n) row) as [Hlong | Hshort].
      * split.
        -- intros _. eexists.
           apply (coarse_total_prefix raw row (S n) 0%float Hlast Hlong (S n) (le_n _)).
        -- intros H. exfalso. apply H. right. exists row. split; [reflexivity | exact Hlong].
      * split.
        -- intros [H | (row' & Hrow' & Hlong)]; [discriminate |].
           injection Hrow' as <-. unfold long, short in *. lia.
        -- intros _. eexists _, _.
           apply (coarse_total_short (Z.of_nat (S n)) raw row 0%float Hlast);
             [lia | exact Hshort].
    + apply last_None in Hlast. subst raw. split.
      * intros [H | (row & Hrow & _)]; discriminate.
      * intros _. rewrite seqZ_cons by lia. eexists _, _. reflexivity.
Qed.

(** X16. The coarse aggregation returns exactly when, first, no input is
    configured or there is a last row with a value for each input, and
    second, every row has a timestamp and every row whose timestamp is a
    multiple of 20 has a value for each input; in every other case it
    panics with an index out of range.  A short row that is neither last
    nor kept by the filter goes unnoticed. *)
Theorem X16_coarse_aggregate_returns (oor : float -> Z) (inputs : list string)
    (raw : list (list float)) :
  ((exists r, Coarse.aggregate oor inputs raw = Ret r)
   <-> coarse_last_ok (length inputs) raw
       /\ Forall (coarse_row_ok oor (length inputs)) raw)
  /\ ((exists r, Coarse.aggregate oor inputs raw = Ret r)
      \/ exists i len,
           Coarse.aggregate oor inputs raw = Panicked (IndexOutOfRange i len)).
Proof.
  unfold Coarse.aggregate.
  destruct (coarse_total_outcome (length inputs) raw) as [Htok Htbad].
  destruct (coarse_rows_outcome oor (length inputs) raw
              (make_series (length inputs)) (length_make_series _)) as [Hrok Hrbad].
  assert (coarse_last_ok (length inputs) raw \/ ~ coarse_last_ok (length inputs) raw)
    as [Hlast | Hlast].
  { unfold coarse_last_ok. destruct (length inputs) as [| n]; [left; left; reflexivity |].
    destruct (last raw) as [row |].
    - destruct (long_or_short (S n) row) as [H | H].
      + left. right. exists row. split; [reflexivity | exact H].
      + right. intros [H' | (row' & Hrow' & H')]; [discriminate |].
        injection Hrow' as <-. unfold long, short in *. lia.
    - right. intros [H' | (row' & Hrow' & _)]; discriminate. }
  - destruct (Htok Hlast) as (c & ->). cbn [obind].
    destruct (@Forall_dec _ (coarse_row_ok oor (length inputs))
                (coarse_row_ok_dec oor (length inputs)) raw) as [Hall | Hnot].
    + destruct (Hrok Hall) as (ser & ->). cbn [obind].
      split; [| left; eexists; reflexivity].
      split; [intros _; split; assumption | intros _; eexists; reflexivity].
    + destruct (Hrbad Hnot) as (i & len & ->). cbn [obind].
      split; [| right; exists i, len; reflexivity].
      split; [intros [r Hr]; discriminate | intros [_ Hall]; contradiction].
  - destruct (Htbad Hlast) as (i & len & ->). cbn [obind].
    split; [| right; exists i, len; reflexivity].
    split; [intros [r Hr]; discriminate | intros [H _]; contradiction].
Qed.

Example coarse_short_row_unnoticed :
  Coarse.aggregate amd64_oor ["stove"; "oven"]
    [[100; 500; 1500]; [110]; [120; 700; 0]]%float
  = Ret (700%float,
         [ {| Data := [[100; 500]; [120; 700]]%float |};
           {| Data := [[100; 1500]; [120; 0]]%float |} ]).
Proof. vm_compute. reflexivity. Qed.

(** ** Where a pass can panic *)

Lemma request_returns (E : Env) (m : ModuleT) (tr : list Event) :
  exists r tr', request E m tr = (Ret r, tr').
Proof.
  unfold request, gbind, call, defer, ret.
  destruct (URL_Parse E (baseURL m) apiQueryPath) as [u | e0]; [| eexists _, _; reflexivity].
  destruct (http_NewRequest E "GET" _) as [e1 |]; [eexists _, _; reflexivity |].
  destruct (http_Do E tr "GET" _) as [resp | e2]; [| eexists _, _; reflexivity].
  destruct (negb _); [| destruct (json_Decode _ _)]; eexists _, _; reflexivity.
Qed.

Lemma fine_render_returns (E : Env) (m : ModuleT) (current : float) (b : string)
    (tr : list Event) :
  exists tr', Fine.render E m current b tr = (Ret tt, tr').
Proof.
  destruct (fine_render_stages E m current b tr) as (evs & H & _).
  eexists. exact H.
Qed.

Lemma coarse_render_returns (E : Env) (m : ModuleT) (current : float)
    (ser : list series) (tr : list Event) :
  exists ctl tr', Coarse.render E m current ser tr = (Ret ctl, tr').
Proof.
  destruct (json_Marshal E ser) as [b | err] eqn:Henc.
  - destruct (coarse_render_stages E m current ser b tr Henc) as (evs & k & H & _).
    eexists _, _. exact H.
  - unfold Coarse.render, gbind.
    destruct (renderCurrent_returns E m current tr) as (e & tr1 & ->).
    rewrite Henc. destruct e as [err' |]; eexists _, _; reflexivity.
Qed.

(** X17. The only panic of a pass is the aggregation's: a pass of either
    version panics exactly when the fetch returned rows and aggregating
    them panics, and then with that panic.  Fetching, encoding, rendering
    and logging never panic, whatever the device and the UI answer. *)
Theorem X17_only_aggregation_panics (E : Env) (m : ModuleT) (tr : list Event)
    (p : panic) :
  (fst (Fine.pass E m tr) = Panicked p
   <-> exists raw, fst (request E m tr) = Ret (OK raw)
                   /\ Fine.aggregate (Inputs (cfg m)) raw = Panicked p)
  /\ (fst (Coarse.pass E m tr) = Panicked p
      <-> exists raw, fst (request E m tr) = Ret (OK raw)
                      /\ Coarse.aggregate (conv_oor E) (Inputs (cfg m)) raw = Panicked p).
Proof.
  destruct (request_returns E m tr) as (r & tr' & Hreq).
  unfold Fine.pass, Coarse.pass, gbind, lift. rewrite Hreq. cbn [fst].
  split.
  - destruct r as [raw | err].
    + destruct (Fine.aggregate (Inputs (cfg m)) raw) as [[current ser] | q] eqn:Hagg.
      * destruct (json_Marshal E ser) as [b | err].
        -- unfold gbind. destruct (fine_render_returns E m current b tr') as (tr1 & ->).
           split; [discriminate |].
           intros (raw' & Hraw & Hp). injection Hraw as <-. congruence.
        -- split; [discriminate |].
           intros (raw' & Hraw & Hp). injection Hraw as <-. congruence.
      * cbn [fst]. split.
        -- intros H. injection H as <-. exists raw. split; [reflexivity | exact Hagg].
        -- intros (raw' & Hraw & Hp). injection Hraw as <-. congruence.
    + split; [discriminate | intros (raw & Hraw & _); discriminate].
  - destruct r as [raw | err].
    + destruct (Coarse.aggregate (conv_oor E) (Inputs (cfg m)) raw)
        as [[current ser] | q] eqn:Hagg.
      * destruct (coarse_render_returns E m current ser tr') as (ctl & tr1 & ->).
        split; [discriminate |].
        intros (raw' & Hraw & Hp). injection Hraw as <-. congruence.
      * cbn [fst]. split.
        -- intros H. injection H as <-. exists raw. split; [reflexivity | exact Hagg].
        -- intros (raw' & Hraw & Hp). injection Hraw as <-. congruence.
    + split; [discriminate | intros (raw & Hraw & _); discriminate].
Qed.


(** ** Time *)

Lemma fine_loop_steps (E : Env) (m : ModuleT) : loop_steps m (Fine.worker_step E m).
Proof.
  intros s s' Hstep. unfold stopped, running.
  destruct Hstep as [s0 Hw | s0 Hw | s0 c Hw _].
  - split; [intros [H | [p H]]; congruence |].
    unfold NewTicker. destruct (Z.leb_spec (Interval (cfg m)) 0) as [Hd | Hd]; cbn.
    + split; [discriminate | intros _ [H | H]; discriminate].
    + split; [discriminate | intros _ _; exact Hd].
  - split; [intros [H | [p H]]; congruence |].
    split; [| intros H; congruence].
    unfold after_pass. destruct (Fine.pass E m (trace s0)) as [[[|] | p] tr]; discriminate.
  - split; [intros [H | [p H]]; congruence |].
    split; [destruct c; discriminate | intros H; congruence].
Qed.


Lemma running_cases (s : Sys) :
  running s \/ worker s = Starting \/ stopped s.
Proof.
  unfold running, stopped. destruct (worker s) as [| | | | p]; eauto.
Qed.




Lemma timed_refines (wstep : Sys -> Sys -> Prop) (m : ModuleT) (t0 : Z)
    (T T' : Timed) :
  on_schedule m t0 T -> timed_step wstep m T T' ->
  sys T' = sys T \/ wstep (sys T) (sys T') \/ env_step (sys T) (sys T').
Proof.
  intros Hs Hstep. revert Hs.
  destruct Hstep as [T1 s' Hw | T1 t _ _ | T1 tk Hsome _ | T1 s' Hclose];
    intros [_ Htk]; cbn [sys].
  - right. left. exact Hw.
  - left. reflexivity.
  - right. right. rewrite Hsome in Htk. destruct Htk as (Hrun & _).
    apply env_tick. exact Hrun.
  - right. right. apply env_close. exact Hclose.
Qed.





